(** * Belfort Content Suite: generation-request orchestration

    A shallow embedding of the orchestration logic of the three React
    components ([SpeechGenerator], [ImageGenerator], [VideoGenerator]):
    the cue regexes, the image fan-out, the video poller, the credential
    flag and the audio playback helper, with the properties the design
    document states about them. *)

From Stdlib Require Import String Ascii DecimalString List Bool Arith NArith Lia.
Import ListNotations.

Set Implicit Arguments.

(** ** JavaScript strings and the regular expressions of the source *)

Module JS.

(** A JavaScript string is a sequence of UTF-16 code units. *)
Definition char := N.
Definition jsstring := list char.

Definition js (s : string) : jsstring :=
  map N_of_ascii (list_ascii_of_string s).

Local Open Scope N_scope.

(** [\d] *)
Definition is_digit (c : char) : bool := (48 <=? c) && (c <=? 57).

(** LineTerminator: LF, CR, LS, PS. *)
Definition is_line_terminator (c : char) : bool :=
  (c =? 10) || (c =? 13) || (c =? 8232) || (c =? 8233).

(** WhiteSpace: TAB, VT, FF, ZWNBSP and the Unicode space separators. *)
Definition is_white_space (c : char) : bool :=
  (c =? 9) || (c =? 11) || (c =? 12) || (c =? 32) || (c =? 160) ||
  (c =? 5760) || ((8192 <=? c) && (c <=? 8202)) || (c =? 8239) ||
  (c =? 8287) || (c =? 12288) || (c =? 65279).

(** [\s], also the set stripped by [String.prototype.trim]. *)
Definition is_space (c : char) : bool :=
  is_white_space c || is_line_terminator c.

(** [.] without the [s] flag. *)
Definition is_dot (c : char) : bool := negb (is_line_terminator c).

Definition LF : char := 10.

Local Close Scope N_scope.

(** Character classes and the regex fragment the source uses: single
    characters, greedy and lazy stars and greedy plus over one class,
    sequencing and capture groups. *)
Inductive cclass : Type :=
| CLit (c : char)
| CDigit
| CSpace
| CDot.

Definition accepts (cl : cclass) (c : char) : bool :=
  match cl with
  | CLit d => N.eqb c d
  | CDigit => is_digit c
  | CSpace => is_space c
  | CDot => is_dot c
  end.

Inductive regex : Type :=
| REmpty
| RChar (cl : cclass)
| RStar (cl : cclass)
| RLazy (cl : cclass)
| RPlus (cl : cclass)
| RSeq (r1 r2 : regex)
| RGroup (r : regex).

Fixpoint RLit (s : jsstring) : regex :=
  match s with
  | [] => REmpty
  | c :: s' => RSeq (RChar (CLit c)) (RLit s')
  end.

(** Backtracking matcher in continuation-passing style.  A greedy star
    tries the longest run first and gives characters back one at a time;
    a lazy star tries the continuation first and extends on failure. *)
Section Matcher.
Variable R : Type.

Fixpoint star_greedy (p : char -> bool) (s : jsstring)
         (k : jsstring -> option R) : option R :=
  match s with
  | c :: s' =>
      if p c then
        match star_greedy p s' k with
        | Some r => Some r
        | None => k s
        end
      else k s
  | [] => k []
  end.

Fixpoint star_lazy (p : char -> bool) (s : jsstring)
         (k : jsstring -> option R) : option R :=
  match k s with
  | Some r => Some r
  | None =>
      match s with
      | c :: s' => if p c then star_lazy p s' k else None
      | [] => None
      end
  end.

Fixpoint rmatch (r : regex) (s : jsstring) (caps : list jsstring)
         (k : jsstring -> list jsstring -> option R) : option R :=
  match r with
  | REmpty => k s caps
  | RChar cl =>
      match s with
      | c :: s' => if accepts cl c then k s' caps else None
      | [] => None
      end
  | RStar cl => star_greedy (accepts cl) s (fun s' => k s' caps)
  | RLazy cl => star_lazy (accepts cl) s (fun s' => k s' caps)
  | RPlus cl =>
      match s with
      | c :: s' =>
          if accepts cl c
          then star_greedy (accepts cl) s' (fun s'' => k s'' caps)
          else None
      | [] => None
      end
  | RSeq r1 r2 =>
      rmatch r1 s caps (fun s' caps' => rmatch r2 s' caps' k)
  | RGroup r1 =>
      rmatch r1 s caps
        (fun s' caps' =>
           k s' (caps' ++ [firstn (length s - length s') s]))
  end.
End Matcher.

(** One match attempt anchored at the head of [s]: the text left after
    the match and the captures, in group order. *)
Definition match_at (re : regex) (s : jsstring)
  : option (jsstring * list jsstring) :=
  rmatch re s [] (fun rest caps => Some (rest, caps)).

(** A match found by scanning: skipped text, matched text, captures and
    the text after the match. *)
Record found : Type := Found {
  before : jsstring;
  matched : jsstring;
  groups : list jsstring;
  after : jsstring
}.

(** Leftmost match, as [RegExp.prototype.exec] scans for it. *)
Fixpoint search (re : regex) (s : jsstring) : option found :=
  match match_at re s with
  | Some (rest, caps) =>
      Some (Found [] (firstn (length s - length rest) s) caps rest)
  | None =>
      match s with
      | [] => None
      | c :: s' =>
          match search re s' with
          | Some f => Some (Found (c :: before f) (matched f) (groups f) (after f))
          | None => None
          end
      end
  end.

(** [re.test(s)] *)
Definition test (re : regex) (s : jsstring) : bool :=
  match search re s with Some _ => true | None => false end.

(** [s.matchAll(re)] for a global regex: successive leftmost matches,
    each scan resuming where the previous match ended (one code unit
    further after an empty match). *)
Fixpoint matchAll_fuel (fuel : nat) (re : regex) (s : jsstring) : list found :=
  match fuel with
  | O => []
  | S fuel' =>
      match search re s with
      | None => []
      | Some f =>
          f :: match matched f, after f with
               | [], [] => []
               | [], _ :: r => matchAll_fuel fuel' re r
               | _ :: _, r => matchAll_fuel fuel' re r
               end
      end
  end.

Definition matchAll (re : regex) (s : jsstring) : list found :=
  matchAll_fuel (S (length s)) re s.

(** [s.replace(re, repl)] for a global regex; [repl] builds the
    replacement from the captures of each match. *)
Fixpoint replace_fuel (fuel : nat) (re : regex)
         (repl : list jsstring -> jsstring) (s : jsstring) : jsstring :=
  match fuel with
  | O => s
  | S fuel' =>
      match search re s with
      | None => s
      | Some f =>
          before f ++ repl (groups f) ++
          match matched f, after f with
          | [], [] => []
          | [], c :: r => c :: replace_fuel fuel' re repl r
          | _ :: _, r => replace_fuel fuel' re repl r
          end
      end
  end.

Definition replace (re : regex) (repl : list jsstring -> jsstring)
           (s : jsstring) : jsstring :=
  replace_fuel (S (length s)) re repl s.

(** [String.prototype.trim] *)
Fixpoint trimStart (s : jsstring) : jsstring :=
  match s with
  | c :: s' => if is_space c then trimStart s' else s
  | [] => []
  end.

Definition trimEnd (s : jsstring) : jsstring := rev (trimStart (rev s)).

Definition trim (s : jsstring) : jsstring := trimStart (trimEnd s).

(** [s.includes(needle)] *)
Fixpoint starts_with (needle s : jsstring) : bool :=
  match needle, s with
  | [], _ => true
  | _ :: _, [] => false
  | a :: n', b :: s' => N.eqb a b && starts_with n' s'
  end.

Fixpoint includes (s needle : jsstring) : bool :=
  starts_with needle s ||
  match s with
  | [] => false
  | _ :: s' => includes s' needle
  end.

End JS.

(** ** Cue markup of the rewritten script (SpeechGenerator.tsx) *)

Module Cue.
Import JS.

(** [\[IMAGE \d+\]] *)
Definition markerRe : regex :=
  RSeq (RLit (js "[IMAGE ")) (RSeq (RPlus CDigit) (RChar (CLit 93%N))).

(** [promptRegex = /\[IMAGE \d+\]\s*\n(.*?)\s*\n/g] *)
Definition promptRegex : regex :=
  RSeq markerRe
    (RSeq (RStar CSpace)
       (RSeq (RChar (CLit LF))
          (RSeq (RGroup (RLazy CDot))
             (RSeq (RStar CSpace) (RChar (CLit LF)))))).

(** [/(\[IMAGE \d+\])\s*\n.*?\n/g], the display regex of
    [renderBelfortText]. *)
Definition displayRegex : regex :=
  RSeq (RGroup markerRe)
    (RSeq (RStar CSpace)
       (RSeq (RChar (CLit LF))
          (RSeq (RLazy CDot) (RChar (CLit LF))))).

(** [/\[IMAGE \d+\]\s*\n.*?\n/g], the regex that strips cue and prompt
    from the narration. *)
Definition speechRegex : regex :=
  RSeq markerRe
    (RSeq (RStar CSpace)
       (RSeq (RChar (CLit LF))
          (RSeq (RLazy CDot) (RChar (CLit LF))))).

(** [[...rewrittenText.matchAll(promptRegex)].map(match => match[1].trim())] *)
Definition extractPrompts (rewrittenText : jsstring) : list jsstring :=
  map (fun m => trim (nth 0 (groups m) [])) (matchAll promptRegex rewrittenText).

(** [belfortText.replace(/(\[IMAGE \d+\])\s*\n.*?\n/g, '$1\n')] *)
Definition stripPromptLines (belfortText : jsstring) : jsstring :=
  replace displayRegex (fun caps => nth 0 caps [] ++ [LF]) belfortText.

(** [rewrittenText.replace(/\[IMAGE \d+\]\s*\n.*?\n/g, '')] *)
Definition stripBoth (rewrittenText : jsstring) : jsstring :=
  replace speechRegex (fun _ => []) rewrittenText.

End Cue.

(** ** Scripts made of cue blocks *)

Module Script.
Import JS Cue.

(** A cue block: the digits of its marker, its prompt line, and the
    prose that follows up to the next block. *)
Record block : Type := {
  number : jsstring;
  prompt : jsstring;
  prose : jsstring
}.

Definition markerBody (digits : jsstring) : jsstring :=
  js "IMAGE " ++ digits ++ [93%N].

Definition marker (digits : jsstring) : jsstring := 91%N :: markerBody digits.

(** Marker line, prompt line, both ended by a line feed, then prose. *)
Definition blockText (b : block) : jsstring :=
  marker (number b) ++ LF :: prompt b ++ LF :: prose b.

Definition script (intro : jsstring) (bs : list block) : jsstring :=
  intro ++ flat_map blockText bs.

(** The same script with every prompt line taken out. *)
Definition strippedBlock (b : block) : jsstring :=
  marker (number b) ++ LF :: prose b.

Definition strippedScript (intro : jsstring) (bs : list block) : jsstring :=
  intro ++ flat_map strippedBlock bs.

Definition markerFree (s : jsstring) : bool := negb (test markerRe s).

Definition isNumber (digits : jsstring) : bool :=
  (0 <? length digits) && forallb is_digit digits.

(** A prompt line holds no line terminator and is not blank. *)
Definition isPromptLine (q : jsstring) : bool :=
  forallb is_dot q && existsb (fun c => negb (is_space c)) q.

Definition wellFormed (b : block) : bool :=
  isNumber (number b) && isPromptLine (prompt b) && markerFree (prose b).

Definition newlines (s : jsstring) : nat := length (filter (N.eqb LF) s).

Definition bracket : char := 91%N.

(** Either nothing, or text that opens with a bracket: what follows a
    block in a script. *)
Definition opensWithBracket (t : jsstring) : Prop :=
  t = [] \/ exists t', t = bracket :: t'.

Definition nonSpace (c : char) : bool := negb (is_space c).

(** Sample scripts, after the example of the rewrite prompt. *)
Definition pitch : jsstring := js "Sell me this pen!" ++ [LF].

Definition lionBlock : block :=
  {| number := js "1";
     prompt := js "A golden lion standing on a mountain peak at sunrise.";
     prose := js "Then continue the script..." ++ [LF] ++ js "Buy now." |}.

Definition yachtBlock : block :=
  {| number := js "2";
     prompt := js "A yacht at full speed.";
     prose := js "The deal is closed." |}.

(** A script whose last line is the prompt of its only cue, as
    [trim] leaves it. *)
Definition closingCue : jsstring :=
  pitch ++ marker (js "1") ++ LF :: js "A golden lion standing on a mountain peak at sunrise.".

End Script.

(** ** The inference service as the components see it *)

Module Gemini.
Import JS.

(** What a [catch (e)] clause receives: an [Error] object, or any other
    value, kept as its [String(e)] rendering. *)
Inductive thrown : Type :=
| ErrorObj (message : jsstring)
| OtherValue (rendering : jsstring).

(** [e instanceof Error ? e.message : String(e)] *)
Definition errorMessage (e : thrown) : jsstring :=
  match e with
  | ErrorObj m => m
  | OtherValue s => s
  end.

Inductive settled (A : Type) : Type :=
| Fulfilled (v : A)
| Rejected (e : thrown).
Arguments Fulfilled {A} v.
Arguments Rejected {A} e.

(** A promise together with the instant at which it settles. *)
Record timed (A : Type) : Type := Timed {
  settlesAt : nat;
  outcome : settled A
}.

Record InlineData : Type := {
  mimeType : option jsstring;
  data : option jsstring
}.

Record Part : Type := {
  inlineData : option InlineData;
  partText : option jsstring
}.

Record Content : Type := { parts : option (list Part) }.

Record Candidate : Type := { content : option Content }.

Record GenerateContentResponse : Type := {
  candidates : option (list Candidate);
  text : option jsstring
}.

(** [response.candidates?.[0]?.content?.parts?.[0]] *)
Definition firstPart (response : GenerateContentResponse) : option Part :=
  match candidates response with
  | Some (c :: _) =>
      match content c with
      | Some ct =>
          match parts ct with
          | Some (p :: _) => Some p
          | _ => None
          end
      | None => None
      end
  | _ => None
  end.

(** A value interpolated in a template literal; [undefined] prints as
    the word. *)
Definition interpolate (v : option jsstring) : jsstring :=
  match v with
  | Some s => s
  | None => js "undefined"
  end.

(** Truthiness of a possibly-undefined string. *)
Definition truthy (v : option jsstring) : bool :=
  match v with
  | Some (_ :: _) => true
  | _ => false
  end.

Record VideoOperation : Type := {
  done : bool;
  (** [response?.generatedVideos?.[0]?.video?.uri] *)
  videoUri : option jsstring
}.

(** Outbound calls. *)
Inductive call : Type :=
| GenerateContent (model : jsstring) (contents : jsstring)
| GenerateVideos (model : jsstring) (prompt : jsstring)
                 (imageBytes : jsstring) (imageMime : jsstring)
| GetVideosOperation (operation : VideoOperation)
| Fetch (url : jsstring).

Inductive effect : Type :=
| Sleep (ms : N)
| Net (c : call).

Definition netCalls (es : list effect) : list call :=
  flat_map (fun e => match e with Net c => [c] | Sleep _ => [] end) es.

(** [Promise.all]: rejects at the earliest rejection among its members
    (the lowest index wins a tie), and otherwise fulfils once the last
    member has fulfilled, with the values in index order. *)
Section PromiseAll.
Variable A : Type.

Fixpoint firstRejection (ps : list (timed A)) : option (nat * thrown) :=
  match ps with
  | [] => None
  | p :: ps' =>
      match outcome p, firstRejection ps' with
      | Rejected e, Some (t', e') =>
          if settlesAt p <=? t' then Some (settlesAt p, e) else Some (t', e')
      | Rejected e, None => Some (settlesAt p, e)
      | Fulfilled _, r => r
      end
  end.

Fixpoint fulfilledValues (ps : list (timed A)) : list A :=
  match ps with
  | [] => []
  | p :: ps' =>
      match outcome p with
      | Fulfilled v => v :: fulfilledValues ps'
      | Rejected _ => fulfilledValues ps'
      end
  end.

Definition promiseAll (ps : list (timed A)) : timed (list A) :=
  match firstRejection ps with
  | Some (t, e) => Timed t (Rejected e)
  | None => Timed (list_max (map (@settlesAt A) ps)) (Fulfilled (fulfilledValues ps))
  end.
End PromiseAll.

Definition apiKeyMissing : jsstring :=
  js "API key is not configured. Please set the API_KEY environment variable.".

Definition anErrorOccurred (e : thrown) : jsstring :=
  js "An error occurred: " ++ errorMessage e.

(** [!text.trim()] *)
Definition blank (s : jsstring) : bool :=
  match trim s with [] => true | _ :: _ => false end.

End Gemini.

(** ** ImageGenerator (App.tsx) *)

Module Image.
Import JS Gemini.

Record State : Type := {
  imageUrls : list jsstring;
  isLoading : bool;
  error : option jsstring
}.

(** The world around one invocation: the credential of the process
    environment and, for the i-th issued request, when and how it settles. *)
Record Env : Type := {
  API_KEY : option jsstring;
  respond : nat -> timed GenerateContentResponse
}.

Record Run : Type := {
  final : State;
  effects : list effect;
  (** instant at which the handler left its [await] (0 when it never
      reached one) *)
  resumedAt : nat
}.

Definition fanOut : nat := 5.

Definition themedPrompt (prompt : jsstring) : jsstring :=
  js "A cinematic, luxurious, high-energy photograph of " ++ prompt ++
  js ", embodying wealth and power, Wolf of Wall Street style.".

Definition request (prompt : jsstring) : call :=
  GenerateContent (js "gemini-2.5-flash-image") (themedPrompt prompt).

(** The callback of [responses.map]: a data URL, or [null]. *)
Definition toUrl (response : GenerateContentResponse) : option jsstring :=
  match firstPart response with
  | Some part =>
      match inlineData part with
      | Some d =>
          Some (js "data:" ++ interpolate (mimeType d) ++ js ";base64," ++
                interpolate (data d))
      | None => None
      end
  | None => None
  end.

(** [.filter(url => url !== null)] after the map. *)
Fixpoint collectUrls (responses : list GenerateContentResponse) : list jsstring :=
  match responses with
  | [] => []
  | r :: rs =>
      match toUrl r with
      | Some u => u :: collectUrls rs
      | None => collectUrls rs
      end
  end.

Definition decimal (n : nat) : jsstring :=
  js (NilEmpty.string_of_uint (Nat.to_uint n)).

Definition partialNotice (n : nat) : jsstring :=
  js "Successfully generated " ++ decimal n ++
  js " out of 5 images. Some generations may have been blocked.".

Definition nothingGenerated : jsstring :=
  js "Failed to generate any images. The model may have returned an empty response or been blocked.".

Definition promptMissing : jsstring :=
  js "Please enter a prompt to generate an image.".

(** Lines 126-142: what the handler does with the five responses. *)
Definition aggregate (responses : list GenerateContentResponse) (st : State) : State :=
  let urls := collectUrls responses in
  if 0 <? length urls then
    let st' := {| imageUrls := urls; isLoading := isLoading st; error := error st |} in
    if length urls <? 5
    then {| imageUrls := urls; isLoading := isLoading st';
            error := Some (partialNotice (length urls)) |}
    else st'
  else
    {| imageUrls := imageUrls st; isLoading := isLoading st;
       error := Some nothingGenerated |}.

Definition imagePromises (env : Env) : list (timed GenerateContentResponse) :=
  map (respond env) (seq 0 fanOut).

Definition handleGenerateImage (env : Env) (prompt : jsstring) (st : State) : Run :=
  if blank prompt then
    {| final := {| imageUrls := imageUrls st; isLoading := isLoading st;
                   error := Some promptMissing |};
       effects := []; resumedAt := 0 |}
  else if negb (truthy (API_KEY env)) then
    {| final := {| imageUrls := imageUrls st; isLoading := isLoading st;
                   error := Some apiKeyMissing |};
       effects := []; resumedAt := 0 |}
  else
    let st1 := {| imageUrls := []; isLoading := true; error := None |} in
    let issued := map Net (repeat (request prompt) fanOut) in
    let all := promiseAll (imagePromises env) in
    let st2 :=
      match outcome all with
      | Fulfilled responses => aggregate responses st1
      | Rejected e =>
          {| imageUrls := imageUrls st1; isLoading := isLoading st1;
             error := Some (anErrorOccurred e) |}
      end in
    {| final := {| imageUrls := imageUrls st2; isLoading := false;
                   error := error st2 |};
       effects := issued; resumedAt := settlesAt all |}.

(** The number of responses that carry an inline payload. *)
Definition hasPayload (response : GenerateContentResponse) : bool :=
  match firstPart response with
  | Some part => match inlineData part with Some _ => true | None => false end
  | None => false
  end.

Definition payloadCount (responses : list GenerateContentResponse) : nat :=
  length (filter hasPayload responses).

(** The three outcomes of the design document, read off the component
    state after the handler has finished. *)
Definition showsAll (st : State) : Prop :=
  length (imageUrls st) = 5 /\ error st = None.

Definition showsSome (st : State) : Prop :=
  imageUrls st <> [] /\
  error st = Some (partialNotice (length (imageUrls st))).

Definition showsNone (st : State) : Prop :=
  imageUrls st = [] /\ error st = Some nothingGenerated.

Definition allFulfilled (env : Env) : Prop :=
  forall i, i < fanOut -> exists r, outcome (respond env i) = Fulfilled r.

(** The handler produced its result only after every request settled. *)
Definition waitedForAll (env : Env) (run : Run) : Prop :=
  forall i, i < fanOut -> settlesAt (respond env i) <= resumedAt run.

(** Sample worlds: every request answers with a picture at instant 9,
    except that in [oneRejects] the first is refused at instant 1. *)
Definition picture : GenerateContentResponse :=
  {| candidates :=
       Some [{| content :=
                  Some {| parts :=
                            Some [{| inlineData :=
                                       Some {| mimeType := Some (js "image/png");
                                               data := Some (js "iVBORw0KGgo=") |};
                                     partText := None |}] |} |}];
     text := None |}.

Definition blocked : GenerateContentResponse :=
  {| candidates := Some []; text := None |}.

Definition allAnswer : Env :=
  {| API_KEY := Some (js "k");
     respond := fun i =>
       Timed 9 (Fulfilled (if i <? 2 then blocked else picture)) |}.

Definition oneRejects : Env :=
  {| API_KEY := Some (js "k");
     respond := fun i =>
       if i =? 0 then Timed 1 (Rejected (ErrorObj (js "429 quota exceeded")))
       else Timed 9 (Fulfilled picture) |}.

Definition idle : State := {| imageUrls := []; isLoading := false; error := None |}.

(** No credential in the process environment. *)
Definition noKey : Env :=
  {| API_KEY := None; respond := fun _ => Timed 9 (Fulfilled picture) |}.

(** The notice under the form, rendered when [error] is truthy, in
    the colour [error.startsWith('Success') ? 'text-yellow-400' :
    'text-red-400']. *)
Inductive noticeColour : Type := Yellow | Red.

Definition noticeStyle (st : State) : option noticeColour :=
  match error st with
  | Some (c :: m) =>
      Some (if starts_with (js "Success") (c :: m) then Yellow else Red)
  | _ => None
  end.

End Image.

(** ** VideoGenerator *)

Module Video.
Import JS Gemini.

Record File : Type := {
  fileName : jsstring;
  fileType : jsstring;
  fileSize : N
}.

Record State : Type := {
  prompt : jsstring;
  imageFile : option File;
  imagePreview : option jsstring;
  videoUrl : option jsstring;
  isLoading : bool;
  error : option jsstring;
  apiKeySelected : bool
}.

Definition setPrompt (v : jsstring) (st : State) : State :=
  {| prompt := v; imageFile := imageFile st; imagePreview := imagePreview st;
     videoUrl := videoUrl st; isLoading := isLoading st; error := error st;
     apiKeySelected := apiKeySelected st |}.

Definition setImageFile (v : option File) (st : State) : State :=
  {| prompt := prompt st; imageFile := v; imagePreview := imagePreview st;
     videoUrl := videoUrl st; isLoading := isLoading st; error := error st;
     apiKeySelected := apiKeySelected st |}.

Definition setImagePreview (v : option jsstring) (st : State) : State :=
  {| prompt := prompt st; imageFile := imageFile st; imagePreview := v;
     videoUrl := videoUrl st; isLoading := isLoading st; error := error st;
     apiKeySelected := apiKeySelected st |}.

Definition setVideoUrl (v : option jsstring) (st : State) : State :=
  {| prompt := prompt st; imageFile := imageFile st; imagePreview := imagePreview st;
     videoUrl := v; isLoading := isLoading st; error := error st;
     apiKeySelected := apiKeySelected st |}.

Definition setIsLoading (v : bool) (st : State) : State :=
  {| prompt := prompt st; imageFile := imageFile st; imagePreview := imagePreview st;
     videoUrl := videoUrl st; isLoading := v; error := error st;
     apiKeySelected := apiKeySelected st |}.

Definition setError (v : option jsstring) (st : State) : State :=
  {| prompt := prompt st; imageFile := imageFile st; imagePreview := imagePreview st;
     videoUrl := videoUrl st; isLoading := isLoading st; error := v;
     apiKeySelected := apiKeySelected st |}.

Definition setApiKeySelected (v : bool) (st : State) : State :=
  {| prompt := prompt st; imageFile := imageFile st; imagePreview := imagePreview st;
     videoUrl := videoUrl st; isLoading := isLoading st; error := error st;
     apiKeySelected := v |}.

(** [window.aistudio]: the key-selection service of the host page.  The
    promise of [openSelectKey] carries no value; the boolean records
    whether the user picked a key before the dialog closed, which the
    component cannot see. *)
Record AIStudio : Type := {
  hasSelectedApiKey : settled bool;
  openSelectKey : settled bool
}.

Record FetchResponse : Type := {
  ok : bool;
  statusText : jsstring;
  (** [URL.createObjectURL(await response.blob())] *)
  blobUrl : settled jsstring
}.

Record Env : Type := {
  API_KEY : option jsstring;
  aistudio : option AIStudio;
  (** [fileToBase64] *)
  readFile : File -> settled jsstring;
  (** [URL.createObjectURL(file)] *)
  previewOf : File -> jsstring;
  (** [ai.models.generateVideos] *)
  submit : settled VideoOperation;
  (** the k-th call of [ai.operations.getVideosOperation], from 0 *)
  poll : nat -> settled VideoOperation;
  (** [fetch] *)
  download : jsstring -> settled FetchResponse
}.

Record Run : Type := {
  final : State;
  effects : list effect
}.

Definition pollInterval : N := 10000.

Definition keyInvalid : jsstring :=
  js "API key is invalid or not found. Please select a valid key.".

Definition entityNotFound : jsstring := js "Requested entity was not found".

Definition inputMissing : jsstring := js "Please provide a prompt and an image.".

Definition dialogFailed : jsstring :=
  js "Could not open API key selection dialog.".

Definition imageTooLarge : jsstring := js "Image size cannot exceed 4MB.".

Definition noDownloadLink : jsstring :=
  js "Video generation completed, but no download link was provided.".

Definition themedPrompt (p : jsstring) : jsstring :=
  js "A cinematic, luxurious, high-energy video of " ++ p ++
  js ", embodying wealth and power, Wolf of Wall Street style.".

(** The effect of mounting the component. *)
Definition checkApiKey (env : Env) (st : State) : State :=
  match aistudio env with
  | Some studio =>
      match hasSelectedApiKey studio with
      | Fulfilled true => setApiKeySelected true st
      | _ => st
      end
  | None => st
  end.

Definition handleSelectKey (env : Env) (st : State) : State :=
  match aistudio env with
  | Some studio =>
      match openSelectKey studio with
      | Fulfilled _ => setApiKeySelected true st
      | Rejected _ => setError (Some dialogFailed) st
      end
  | None => setError (Some dialogFailed) st
  end.

Definition handleFileChange (env : Env) (file : option File) (st : State) : State :=
  match file with
  | Some f =>
      if (4 * 1024 * 1024 <? fileSize f)%N then setError (Some imageTooLarge) st
      else setError None (setImagePreview (Some (previewOf env f)) (setImageFile (Some f) st))
  | None => st
  end.

(** [while (!operation.done) { await sleep; operation = await poll }].
    [k] counts the polls already issued; the loop runs out of [fuel]
    only if the job never reports completion. *)
Fixpoint pollLoop (fuel : nat) (polls : nat -> settled VideoOperation) (k : nat)
         (operation : VideoOperation)
  : option (list effect * settled VideoOperation) :=
  if done operation then Some ([], Fulfilled operation)
  else
    match fuel with
    | O => None
    | S fuel' =>
        let cycle := [Sleep pollInterval; Net (GetVideosOperation operation)] in
        match polls k with
        | Rejected e => Some (cycle, Rejected e)
        | Fulfilled operation' =>
            match pollLoop fuel' polls (S k) operation' with
            | Some (es, r) => Some (cycle ++ es, r)
            | None => None
            end
        end
    end.

(** The body of the [try] block: the effects it performed and the object
    URL of the video, or what it threw. *)
Definition tryGenerate (fuel : nat) (env : Env) (p : jsstring) (file : File)
  : option (list effect * settled jsstring) :=
  match readFile env file with
  | Rejected e => Some ([], Rejected e)
  | Fulfilled imageBase64 =>
      let submitted :=
        Net (GenerateVideos (js "veo-3.1-fast-generate-preview") (themedPrompt p)
               imageBase64 (fileType file)) in
      match submit env with
      | Rejected e => Some ([submitted], Rejected e)
      | Fulfilled operation0 =>
          match pollLoop fuel (poll env) 0 operation0 with
          | None => None
          | Some (es, Rejected e) => Some (submitted :: es, Rejected e)
          | Some (es, Fulfilled operation) =>
              if truthy (videoUri operation) then
                let url := interpolate (videoUri operation) ++ js "&key=" ++
                           interpolate (API_KEY env) in
                let fetched := submitted :: es ++ [Net (Fetch url)] in
                match download env url with
                | Rejected e => Some (fetched, Rejected e)
                | Fulfilled response =>
                    if negb (ok response) then
                      Some (fetched,
                            Rejected (ErrorObj (js "Failed to download video: " ++
                                                statusText response)))
                    else Some (fetched, blobUrl response)
                end
              else Some (submitted :: es, Rejected (ErrorObj noDownloadLink))
          end
      end
  end.

(** The [catch] block. *)
Definition onCatch (e : thrown) (st : State) : State :=
  let message := errorMessage e in
  let st1 := setError (Some (js "An error occurred: " ++ message)) st in
  if includes message entityNotFound
  then setApiKeySelected false (setError (Some keyInvalid) st1)
  else st1.

Definition handleGenerateVideo (fuel : nat) (env : Env) (st : State) : option Run :=
  match blank (prompt st), imageFile st with
  | false, Some file =>
      if negb (truthy (API_KEY env)) then
        Some {| final := setError (Some apiKeyMissing) st; effects := [] |}
      else
        let st1 := setVideoUrl None (setError None (setIsLoading true st)) in
        match tryGenerate fuel env (prompt st) file with
        | None => None
        | Some (es, Fulfilled url) =>
            Some {| final := setIsLoading false (setVideoUrl (Some url) st1);
                    effects := es |}
        | Some (es, Rejected e) =>
            Some {| final := setIsLoading false (onCatch e st1); effects := es |}
        end
  | _, _ => Some {| final := setError (Some inputMissing) st; effects := [] |}
  end.

(** What the component renders: the key-selection screen stands in for
    the whole form while the flag is off. *)
Inductive screen : Type := KeyRequired | GeneratorForm.

Definition view (st : State) : screen :=
  if apiKeySelected st then GeneratorForm else KeyRequired.

(** Everything that can happen to a mounted component. *)
Inductive action : Type :=
| Mount
| SelectKey
| FileChange (file : option File)
| TypePrompt (v : jsstring)
| GenerateVideo.

Definition step (fuel : nat) (env : Env) (a : action) (st : State) : option State :=
  match a with
  | Mount => Some (checkApiKey env st)
  | SelectKey => Some (handleSelectKey env st)
  | FileChange file => Some (handleFileChange env file st)
  | TypePrompt v => Some (setPrompt v st)
  | GenerateVideo =>
      match handleGenerateVideo fuel env st with
      | Some run => Some (final run)
      | None => None
      end
  end.

(** A job that first reports [done] on its [D]-th poll. *)
Definition doneOnPoll (env : Env) (D : nat) : Prop :=
  0 < D /\
  (exists operation0, submit env = Fulfilled operation0 /\ done operation0 = false) /\
  (forall k, S k < D ->
     exists operation, poll env k = Fulfilled operation /\ done operation = false) /\
  (exists operation, poll env (D - 1) = Fulfilled operation /\ done operation = true).

Definition isSleep (e : effect) : bool :=
  match e with Sleep _ => true | Net _ => false end.

Definition isPoll (e : effect) : bool :=
  match e with Net (GetVideosOperation _) => true | _ => false end.

(** The part of an effect list made of poll cycles: every poll call
    comes right after one wait of the fixed interval. *)
Fixpoint pollCycles (es : list effect) : option nat :=
  match es with
  | [] => Some 0
  | Sleep ms :: Net (GetVideosOperation _) :: es' =>
      if N.eqb ms pollInterval
      then option_map S (pollCycles es')
      else None
  | _ => None
  end.

(** The exception that reaches the [catch] block, if the handler gets
    that far. *)
Definition thrownBy (fuel : nat) (env : Env) (st : State) : option thrown :=
  match blank (prompt st), imageFile st with
  | false, Some file =>
      if negb (truthy (API_KEY env)) then None
      else
        match tryGenerate fuel env (prompt st) file with
        | Some (_, Rejected e) => Some e
        | _ => None
        end
  | _, _ => None
  end.

(** Sample worlds. *)
Definition frame : File :=
  {| fileName := js "wolf.png"; fileType := js "image/png"; fileSize := 1024 |}.

Definition ready : State :=
  {| prompt := js "a wolf closing a deal"; imageFile := Some frame;
     imagePreview := None; videoUrl := None; isLoading := false;
     error := None; apiKeySelected := true |}.

Definition pending : VideoOperation := {| done := false; videoUri := None |}.

Definition finished : VideoOperation :=
  {| done := true; videoUri := Some (js "https://videos.example/v1?alt=media") |}.

(** A host whose dialog the user closes without picking a key. *)
Definition dismissive : AIStudio :=
  {| hasSelectedApiKey := Fulfilled false; openSelectKey := Fulfilled false |}.

Definition withSubmit (outcome : settled VideoOperation) : Env :=
  {| API_KEY := Some (js "k");
     aistudio := Some dismissive;
     readFile := fun _ => Fulfilled (js "aGk=");
     previewOf := fun _ => js "blob:preview";
     submit := outcome;
     poll := fun k => Fulfilled (if k <? 1 then pending else finished);
     download := fun _ =>
       Fulfilled {| ok := true; statusText := js "OK";
                    blobUrl := Fulfilled (js "blob:video") |} |}.

Definition doneOnSecondPoll : Env := withSubmit (Fulfilled pending).

Definition keyRevoked : Env :=
  withSubmit (Rejected (ErrorObj (js "404 Requested entity was not found."))).

Definition noKey : Env :=
  {| API_KEY := None;
     aistudio := Some dismissive;
     readFile := fun _ => Fulfilled (js "aGk=");
     previewOf := fun _ => js "blob:preview";
     submit := Fulfilled pending;
     poll := fun _ => Fulfilled finished;
     download := fun _ =>
       Fulfilled {| ok := true; statusText := js "OK";
                    blobUrl := Fulfilled (js "blob:video") |} |}.

Definition networkDown : Env :=
  withSubmit (Rejected (ErrorObj (js "Failed to fetch"))).

(** The component as its [useState] calls initialise it. *)
Definition initial : State :=
  {| prompt := []; imageFile := None; imagePreview := None; videoUrl := None;
     isLoading := false; error := None; apiKeySelected := false |}.

Definition sizeLimit : N := 4 * 1024 * 1024.

(** A sequence of user actions on one mounted component; [None] when a
    generation among them never returns. *)
Fixpoint runActions (fuel : nat) (env : Env) (actions : list action) (st : State)
  : option State :=
  match actions with
  | [] => Some st
  | a :: rest =>
      match step fuel env a st with
      | Some st' => runActions fuel env rest st'
      | None => None
      end
  end.

(** [s.split(sep)] for a separator of one code unit. *)
Fixpoint splitOn (sep : char) (s : jsstring) : list jsstring :=
  match s with
  | [] => [[]]
  | c :: s' =>
      if N.eqb c sep then [] :: splitOn sep s'
      else
        match splitOn sep s' with
        | piece :: pieces => (c :: piece) :: pieces
        | [] => [[c]]
        end
  end.

Definition comma : char := 44%N.

(** The [onload] callback of [fileToBase64]: [result.split(',')[1]] of
    the data URL the reader produced; [None] stands for [undefined]. *)
Definition fileToBase64 (result : jsstring) : option jsstring :=
  nth_error (splitOn comma result) 1.

(** A data URL as [readAsDataURL] builds it. *)
Definition dataUrl (mime payload : jsstring) : jsstring :=
  js "data:" ++ mime ++ js ";base64," ++ payload.

Definition loadingMessages : list jsstring :=
  [js "Assembling your board of directors...";
   js "Warming up the director's chair...";
   js "Storyboarding your masterpiece...";
   js "Rendering the first frames...";
   js "Adding Wolf of Wall Street flair...";
   js "Closing the deal on your video...";
   js "Polishing the final cut..."].

(** The message on screen while loading and the counter of the interval
    callback; [None] stands for [undefined]. *)
Record Ticker : Type := {
  loadingMessage : option jsstring;
  messageIndex : nat
}.

(** [setLoadingMessage(loadingMessages[0]); let messageIndex = 1] *)
Definition startLoading : Ticker :=
  {| loadingMessage := nth_error loadingMessages 0; messageIndex := 1 |}.

(** The callback run every 5000 ms. *)
Definition tick (t : Ticker) : Ticker :=
  {| loadingMessage :=
       nth_error loadingMessages (messageIndex t mod length loadingMessages);
     messageIndex := S (messageIndex t) |}.

Definition afterTicks (n : nat) : Ticker := Nat.iter n tick startLoading.

(** The selected image obeys the size limit and the preview on screen
    is the preview of that image. *)
Definition fileInvariant (env : Env) (st : State) : Prop :=
  match imageFile st with
  | Some f => (fileSize f <= sizeLimit)%N /\ imagePreview st = Some (previewOf env f)
  | None => imagePreview st = None
  end.

Definition isSubmit (e : effect) : bool :=
  match e with Net (GenerateVideos _ _ _ _) => true | _ => false end.

Definition isFetch (e : effect) : bool :=
  match e with Net (Fetch _) => true | _ => false end.

End Video.

(** ** Audio playback (SpeechGenerator.tsx, [playAudio]) *)

Module Playback.

(** A decoded buffer, known by its identity. *)
Inductive AudioBuffer : Type := Buffer (id : nat).

(** An [AudioContext] of the page: whether [close()] was called on it,
    whether its teardown has completed (the output device is released),
    and the buffer started on it. *)
Record AudioContextObj : Type := {
  closeRequested : bool;
  released : bool;
  started : option AudioBuffer
}.

(** What [close()] answers on a context that was closed before: the Web
    Audio interface rejects the promise (so a [then] callback never
    runs); a lenient host resolves it again. *)
Inductive closePolicy : Type := RejectRepeatedClose | ResolveRepeatedClose.

(** The contexts created so far, [audioContextRef.current] as an index
    into them, and the [close()] promises still pending, oldest first,
    each with the buffer its [then] callback will start. *)
Record World : Type := {
  contexts : list AudioContextObj;
  current : option nat;
  pendingClose : list (nat * AudioBuffer)
}.

Definition emptyWorld : World :=
  {| contexts := []; current := None; pendingClose := [] |}.

Definition freshContext (b : option AudioBuffer) : AudioContextObj :=
  {| closeRequested := false; released := false; started := b |}.

Fixpoint setNth (n : nat) (f : AudioContextObj -> AudioContextObj)
         (l : list AudioContextObj) : list AudioContextObj :=
  match n, l with
  | _, [] => []
  | O, x :: l' => f x :: l'
  | S n', x :: l' => x :: setNth n' f l'
  end.

(** [if (!audioContextRef.current) audioContextRef.current = new AudioContext] *)
Definition ensureContext (w : World) : World :=
  match current w with
  | Some _ => w
  | None =>
      {| contexts := contexts w ++ [freshContext None];
         current := Some (length (contexts w));
         pendingClose := pendingClose w |}
  end.

Definition markCloseRequested (c : AudioContextObj) : AudioContextObj :=
  {| closeRequested := true; released := released c; started := started c |}.

Definition markReleased (c : AudioContextObj) : AudioContextObj :=
  {| closeRequested := closeRequested c; released := true; started := started c |}.

Definition playAudio (policy : closePolicy) (buffer : option AudioBuffer)
           (w : World) : World :=
  match buffer with
  | None => w
  | Some b =>
      let w1 := ensureContext w in
      match current w1 with
      | None => w1
      | Some c =>
          match nth_error (contexts w1) c with
          | None => w1
          | Some ctx =>
              if closeRequested ctx then
                match policy with
                | RejectRepeatedClose => w1
                | ResolveRepeatedClose =>
                    {| contexts := contexts w1; current := current w1;
                       pendingClose := pendingClose w1 ++ [(c, b)] |}
                end
              else
                {| contexts := setNth c markCloseRequested (contexts w1);
                   current := current w1;
                   pendingClose := pendingClose w1 ++ [(c, b)] |}
          end
      end
  end.

(** The oldest pending teardown completes: its promise resolves and the
    [then] callback of [playAudio] runs. *)
Definition teardownCompletes (w : World) : World :=
  match pendingClose w with
  | [] => w
  | (c, b) :: rest =>
      let closed := setNth c markReleased (contexts w) in
      {| contexts := closed ++ [freshContext (Some b)];
         current := Some (length closed);
         pendingClose := rest |}
  end.

Inductive event : Type :=
| Play (buffer : option AudioBuffer)
| TeardownCompletes.

Definition react (policy : closePolicy) (w : World) (e : event) : World :=
  match e with
  | Play buffer => playAudio policy buffer w
  | TeardownCompletes => teardownCompletes w
  end.

Definition runEvents (policy : closePolicy) (es : list event) (w : World) : World :=
  fold_left (react policy) es w.

(** The output resources still held, each with what it plays. *)
Definition active (w : World) : list (option AudioBuffer) :=
  map started (filter (fun c => negb (released c)) (contexts w)).

(** Two decoded buffers. *)
Definition bufferA : AudioBuffer := Buffer 1.
Definition bufferB : AudioBuffer := Buffer 2.


(** Calls that do not overlap: the teardown started by each call
    completes before the next call is made. *)
Definition oneAtATime (buffers : list AudioBuffer) : list event :=
  flat_map (fun b => [Play (Some b); TeardownCompletes]) buffers.

(** One context is live, the current one, with [b] started on it; every
    other context is released and no teardown is pending. *)
Definition settledOn (b : option AudioBuffer) (w : World) : Prop :=
  exists closed,
    contexts w = closed ++ [freshContext b] /\
    forallb released closed = true /\
    current w = Some (length closed) /\
    pendingClose w = [].

End Playback.

(** ** SpeechGenerator *)

Module Speech.
Import JS Gemini.

Definition AudioBuffer := Playback.AudioBuffer.

Record GeneratedAudio : Type := {
  original : option AudioBuffer;
  belfort : option AudioBuffer
}.

Record State : Type := {
  textInput : jsstring;
  belfortText : option jsstring;
  isLoading : bool;
  error : option jsstring;
  generatedAudio : GeneratedAudio;
  hasImagePrompts : bool;
  audio : Playback.World
}.

Definition setBelfortText (v : option jsstring) (st : State) : State :=
  {| textInput := textInput st; belfortText := v; isLoading := isLoading st;
     error := error st; generatedAudio := generatedAudio st;
     hasImagePrompts := hasImagePrompts st; audio := audio st |}.

Definition setIsLoading (v : bool) (st : State) : State :=
  {| textInput := textInput st; belfortText := belfortText st; isLoading := v;
     error := error st; generatedAudio := generatedAudio st;
     hasImagePrompts := hasImagePrompts st; audio := audio st |}.

Definition setError (v : option jsstring) (st : State) : State :=
  {| textInput := textInput st; belfortText := belfortText st;
     isLoading := isLoading st; error := v; generatedAudio := generatedAudio st;
     hasImagePrompts := hasImagePrompts st; audio := audio st |}.

Definition setGeneratedAudio (v : GeneratedAudio) (st : State) : State :=
  {| textInput := textInput st; belfortText := belfortText st;
     isLoading := isLoading st; error := error st; generatedAudio := v;
     hasImagePrompts := hasImagePrompts st; audio := audio st |}.

Definition setHasImagePrompts (v : bool) (st : State) : State :=
  {| textInput := textInput st; belfortText := belfortText st;
     isLoading := isLoading st; error := error st;
     generatedAudio := generatedAudio st; hasImagePrompts := v;
     audio := audio st |}.

Definition withAudio (f : Playback.World -> Playback.World) (st : State) : State :=
  {| textInput := textInput st; belfortText := belfortText st;
     isLoading := isLoading st; error := error st;
     generatedAudio := generatedAudio st;
     hasImagePrompts := hasImagePrompts st; audio := f (audio st) |}.

Record Env : Type := {
  API_KEY : option jsstring;
  closing : Playback.closePolicy;
  (** the rewrite request *)
  rewrite : settled GenerateContentResponse;
  (** the two synthesis requests *)
  speakOriginal : timed GenerateContentResponse;
  speakBelfort : timed GenerateContentResponse;
  (** [decodeAudioData(decode(base64), ctx, 24000, 1)], of
      services/audioUtils *)
  decodeAudio : jsstring -> settled AudioBuffer
}.

Record Run : Type := {
  final : State;
  effects : list effect;
  (** the argument of [onScriptGenerated], when it was called *)
  scriptGenerated : option (list jsstring)
}.

Definition textMissing : jsstring :=
  js "Please enter some text to generate speech.".

Definition audioMissing : jsstring :=
  js "Failed to generate one or both audio versions.".

Definition quote : jsstring := [34%N].

Definition rewritePrompt (input : jsstring) : jsstring :=
  js "Rewrite the following text to sound like it's being spoken by a high-energy, persuasive, and confident motivational speaker like Jordan Belfort. Use punchy language, rhetorical questions, and a sense of urgency." ++
  [LF] ++
  js "      Also, strategically insert up to 10 image cues formatted as [IMAGE #] on their own line. Immediately after each cue, on a new line, provide a concise, powerful image prompt that visually represents the preceding text." ++
  [LF] ++
  js "      For example: ... some profound statement." ++ [LF] ++
  js "[IMAGE 1]" ++ [LF] ++
  js "A golden lion standing on a mountain peak at sunrise." ++ [LF] ++
  js "Then continue the script..." ++ [LF] ++
  js "      Original text: " ++ quote ++ input ++ quote.

Definition belfortVoicePrompt (textForSpeech : jsstring) : jsstring :=
  js "Say with the energetic, confident, and persuasive tone of a world-class motivational speaker like Jordan Belfort: " ++
  quote ++ textForSpeech ++ quote.

Definition ttsModel : jsstring := js "gemini-2.5-flash-preview-tts".

(** [response.candidates?.[0]?.content?.parts?.[0]?.inlineData?.data] *)
Definition audioData (response : GenerateContentResponse) : option jsstring :=
  match firstPart response with
  | Some part =>
      match inlineData part with
      | Some d => data d
      | None => None
      end
  | None => None
  end.

Definition trimOfUndefined : thrown :=
  ErrorObj (js "Cannot read properties of undefined (reading 'trim')").

(** What the [try] block leaves behind: the state as the setters have
    changed it so far, the calls made, the prompts handed to the parent,
    and the exception if one escaped. *)
Record Attempt : Type := {
  reached : State;
  made : list effect;
  handed : option (list jsstring);
  escaped : option thrown
}.

Definition tryGenerate (env : Env) (st : State) : Attempt :=
  let asked := Net (GenerateContent (js "gemini-2.5-flash") (rewritePrompt (textInput st))) in
  match rewrite env with
  | Rejected e => {| reached := st; made := [asked]; handed := None; escaped := Some e |}
  | Fulfilled textModelResponse =>
      match text textModelResponse with
      | None =>
          {| reached := st; made := [asked]; handed := None;
             escaped := Some trimOfUndefined |}
      | Some t =>
          let rewrittenText := trim t in
          let st1 := setBelfortText (Some rewrittenText) st in
          let prompts := Cue.extractPrompts rewrittenText in
          let notify := 0 <? length prompts in
          let st2 := if notify then setHasImagePrompts true st1 else st1 in
          let handedOver := if notify then Some prompts else None in
          let textForSpeech := Cue.stripBoth rewrittenText in
          let calls :=
            [asked;
             Net (GenerateContent ttsModel (textInput st));
             Net (GenerateContent ttsModel (belfortVoicePrompt textForSpeech))] in
          match outcome (promiseAll [speakOriginal env; speakBelfort env]) with
          | Rejected e =>
              {| reached := st2; made := calls; handed := handedOver; escaped := Some e |}
          | Fulfilled responses =>
              let originalBase64 := audioData (nth 0 responses (Build_GenerateContentResponse None None)) in
              let belfortBase64 := audioData (nth 1 responses (Build_GenerateContentResponse None None)) in
              if truthy originalBase64 && truthy belfortBase64 then
                let st3 := withAudio Playback.ensureContext st2 in
                match decodeAudio env (interpolate originalBase64) with
                | Rejected e =>
                    {| reached := st3; made := calls; handed := handedOver;
                       escaped := Some e |}
                | Fulfilled originalAudioBuffer =>
                    match decodeAudio env (interpolate belfortBase64) with
                    | Rejected e =>
                        {| reached := st3; made := calls; handed := handedOver;
                           escaped := Some e |}
                    | Fulfilled belfortAudioBuffer =>
                        let st4 :=
                          setGeneratedAudio
                            {| original := Some originalAudioBuffer;
                               belfort := Some belfortAudioBuffer |} st3 in
                        {| reached :=
                             withAudio (Playback.playAudio (closing env)
                                          (Some belfortAudioBuffer)) st4;
                           made := calls; handed := handedOver; escaped := None |}
                    end
                end
              else
                {| reached := setError (Some audioMissing) st2; made := calls;
                   handed := handedOver; escaped := None |}
          end
      end
  end.

Definition handleGenerateSpeech (env : Env) (st : State) : Run :=
  if blank (textInput st) then
    {| final := setError (Some textMissing) st; effects := [];
       scriptGenerated := None |}
  else if negb (truthy (API_KEY env)) then
    {| final := setError (Some apiKeyMissing) st; effects := [];
       scriptGenerated := None |}
  else
    let st0 :=
      setHasImagePrompts false
        (setBelfortText None
           (setGeneratedAudio {| original := None; belfort := None |}
              (setError None (setIsLoading true st)))) in
    let attempt := tryGenerate env st0 in
    let caught :=
      match escaped attempt with
      | Some e => setError (Some (anErrorOccurred e)) (reached attempt)
      | None => reached attempt
      end in
    {| final := setIsLoading false caught; effects := made attempt;
       scriptGenerated := handed attempt |}.

(** One of the two synthesis requests failed: it rejected, or it settled
    without a usable inline payload. *)
Definition synthesisFailed (p : timed GenerateContentResponse) : Prop :=
  match outcome p with
  | Rejected _ => True
  | Fulfilled r => truthy (audioData r) = false
  end.

(** Sample worlds. *)
Definition draft : State :=
  {| textInput := js "Sell me this pen";
     belfortText := None; isLoading := false; error := None;
     generatedAudio := {| original := None; belfort := None |};
     hasImagePrompts := false; audio := Playback.emptyWorld |}.

Definition spoken : GenerateContentResponse :=
  {| candidates :=
       Some [{| content :=
                  Some {| parts :=
                            Some [{| inlineData :=
                                       Some {| mimeType := Some (js "audio/L16");
                                               data := Some (js "AAD/fw==") |};
                                     partText := None |}] |} |}];
     text := None |}.

Definition rewritten : GenerateContentResponse :=
  {| candidates := None; text := Some Script.closingCue |}.

(** The synthesis of the rewritten text is refused; the other succeeds. *)
Definition belfortRefused : Env :=
  {| API_KEY := Some (js "k");
     closing := Playback.RejectRepeatedClose;
     rewrite := Fulfilled rewritten;
     speakOriginal := Timed 2 (Fulfilled spoken);
     speakBelfort := Timed 3 (Rejected (ErrorObj (js "503 overloaded")));
     decodeAudio := fun _ => Fulfilled (Playback.Buffer 0) |}.

Definition noKey : Env :=
  {| API_KEY := None;
     closing := Playback.RejectRepeatedClose;
     rewrite := Fulfilled rewritten;
     speakOriginal := Timed 2 (Fulfilled spoken);
     speakBelfort := Timed 3 (Fulfilled spoken);
     decodeAudio := fun _ => Fulfilled (Playback.Buffer 0) |}.

(** The rewrite answers with a script of two cue blocks and both
    syntheses succeed. *)
Definition scripted : GenerateContentResponse :=
  {| candidates := None;
     text := Some (Script.script Script.pitch [Script.lionBlock; Script.yachtBlock]
                   ++ [LF]) |}.

Definition spokenBelfort : GenerateContentResponse :=
  {| candidates :=
       Some [{| content :=
                  Some {| parts :=
                            Some [{| inlineData :=
                                       Some {| mimeType := Some (js "audio/L16");
                                               data := Some (js "AQID/w==") |};
                                     partText := None |}] |} |}];
     text := None |}.

Definition allAnswer : Env :=
  {| API_KEY := Some (js "k");
     closing := Playback.RejectRepeatedClose;
     rewrite := Fulfilled scripted;
     speakOriginal := Timed 2 (Fulfilled spoken);
     speakBelfort := Timed 3 (Fulfilled spokenBelfort);
     decodeAudio := fun base64 =>
       Fulfilled (if starts_with (js "AAD") base64
                  then Playback.bufferA else Playback.bufferB) |}.

End Speech.

(** ** Display of the rewritten script ([renderBelfortText]) *)

Module Display.
Import JS Cue Gemini.

(** [s.split(re)]: the scan tries a match at each position [q] from the
    end [p] of the previous separator; a match that ends at [p] (an
    empty match right there) is passed over; otherwise the text since
    [p] and then the captures are output.  [pending] is the text between
    [p] and [q]. *)
Fixpoint splitLoop (fuel : nat) (re : regex) (pending s : jsstring)
  : list jsstring :=
  match fuel with
  | O => [pending ++ s]
  | S fuel' =>
      match s with
      | [] => [pending]
      | c :: s' =>
          match match_at re s with
          | None => splitLoop fuel' re (pending ++ [c]) s'
          | Some (rest, caps) =>
              match pending, length rest =? length s with
              | [], true => splitLoop fuel' re [c] s'
              | _, _ => pending :: caps ++ splitLoop fuel' re [] rest
              end
          end
      end
  end.

Definition split (re : regex) (s : jsstring) : list jsstring :=
  match s with
  | [] => match match_at re [] with Some _ => [] | None => [[]] end
  | _ :: _ => splitLoop (2 * length s + 1) re [] s
  end.

(** What React is given: a highlighted [span] for a cue, bare text for
    the rest. *)
Inductive node : Type :=
| Span (part : jsstring)
| Text (part : jsstring).

Definition nodeText (n : node) : jsstring :=
  match n with Span part => part | Text part => part end.

Definition renderBelfortText (belfortText : option jsstring) : option (list node) :=
  if truthy belfortText then
    let displayText := stripPromptLines (interpolate belfortText) in
    Some (map (fun part => if test markerRe part then Span part else Text part)
              (split (RGroup markerRe) displayText))
  else None.

(** The nodes of a script whose prompt lines are gone. *)
Definition blockNodes (b : Script.block) : list node :=
  [Span (Script.marker (Script.number b)); Text (LF :: Script.prose b)].

(** The pieces such a script falls into at its markers, [p0] being the
    text before the first of them. *)
Fixpoint scriptParts (p0 : jsstring) (bs : list Script.block) : list jsstring :=
  match bs with
  | [] => [p0]
  | b :: bs' =>
      p0 :: Script.marker (Script.number b) :: scriptParts (LF :: Script.prose b) bs'
  end.

(** A part is either free of markers or just one marker. *)
Definition plainOrCue (part : jsstring) : Prop :=
  Script.markerFree part = true \/
  exists ds, Script.isNumber ds = true /\ part = Script.marker ds.

Definition wellClassified (n : node) : Prop :=
  match n with
  | Span part => exists ds, Script.isNumber ds = true /\ part = Script.marker ds
  | Text part => Script.markerFree part = true
  end.

End Display.

(** ** The application shell (App.tsx) *)

Module App.
Import JS Gemini.

Inductive Tab : Type := speech | image | video.

Record State : Type := {
  activeTab : Tab;
  imagePrompts : list jsstring;
  initialImagePrompt : jsstring;
  (** [Date.now()] at the last re-mount of the image generator *)
  imageGenKey : N
}.

Definition initial (now : N) : State :=
  {| activeTab := speech; imagePrompts := []; initialImagePrompt := [];
     imageGenKey := now |}.

Definition handleScriptGenerated (prompts : list jsstring) (st : State) : State :=
  {| activeTab := activeTab st; imagePrompts := prompts;
     initialImagePrompt := initialImagePrompt st; imageGenKey := imageGenKey st |}.

Definition handleGenerateImagesForScript (now : N) (st : State) : State :=
  match imagePrompts st with
  | first :: _ =>
      {| activeTab := image; imagePrompts := imagePrompts st;
         initialImagePrompt := first; imageGenKey := now |}
  | [] => st
  end.

(** A run of the speech handler seen from the shell: [onScriptGenerated]
    is called with the prompts when there are any. *)
Definition afterSpeech (run : Speech.Run) (st : State) : State :=
  match Speech.scriptGenerated run with
  | Some prompts => handleScriptGenerated prompts st
  | None => st
  end.

(** The [Generate Images for Script] button of the speech tab is on
    screen: [generatedAudio.belfort && belfortText && !isLoading] and
    [hasImagePrompts]. *)
Definition scriptButtonShown (st : Speech.State) : bool :=
  match Speech.belfort (Speech.generatedAudio st) with
  | Some _ => truthy (Speech.belfortText st) && negb (Speech.isLoading st) &&
              Speech.hasImagePrompts st
  | None => false
  end.

End App.
(** * Properties *)

(** ** The matcher *)

Module MatcherFacts.
Import JS.

Section Stars.
Variable R : Type.
Implicit Types (p : char -> bool) (k : jsstring -> option R).

Lemma star_greedy_stop p t k :
  (forall c t', t = c :: t' -> p c = false) ->
  star_greedy p t k = k t.
Proof.
  intros H. destruct t as [|c t']; simpl; [reflexivity|].
  now rewrite (H c t' eq_refl).
Qed.

Lemma star_greedy_app_fail p w t k :
  forallb p w = true ->
  (forall a b, w = a ++ b -> b <> [] -> k (b ++ t) = None) ->
  star_greedy p (w ++ t) k = star_greedy p t k.
Proof.
  induction w as [|c w IH]; intros Hp Hk; [reflexivity|].
  simpl in Hp. apply andb_prop in Hp as [Hc Hw].
  simpl. rewrite Hc, IH; auto.
  - destruct (star_greedy p t k); [reflexivity|].
    apply (Hk [] (c :: w)); [reflexivity | discriminate].
  - intros a b -> Hb. apply (Hk (c :: a) b); [reflexivity | assumption].
Qed.

Lemma star_greedy_inv p s k x :
  star_greedy p s k = Some x ->
  exists a b, s = a ++ b /\ forallb p a = true /\ k b = Some x.
Proof.
  induction s as [|c s IH]; simpl; intros H.
  - exists [], []. auto.
  - destruct (p c) eqn:Hc.
    + destruct (star_greedy p s k) eqn:Hs.
      * injection H as <-. destruct (IH eq_refl) as (a & b & -> & Ha & Hb).
        exists (c :: a), b. simpl. rewrite Hc. auto.
      * exists [], (c :: s). auto.
    + exists [], (c :: s). auto.
Qed.

Lemma star_greedy_some p a b k x :
  forallb p a = true -> k b = Some x ->
  exists y, star_greedy p (a ++ b) k = Some y.
Proof.
  induction a as [|c a IH]; simpl; intros Hp Hk.
  - destruct b as [|d b]; simpl.
    + eauto.
    + destruct (p d); [destruct (star_greedy p b k)|]; eauto.
  - apply andb_prop in Hp as [Hc Ha]. rewrite Hc.
    destruct (IH Ha Hk) as [y ->]. eauto.
Qed.

Lemma star_lazy_here p t k x :
  k t = Some x -> star_lazy p t k = Some x.
Proof. intros H. destruct t; simpl; now rewrite H. Qed.

Lemma star_lazy_app_fail p w t k :
  forallb p w = true ->
  (forall a b, w = a ++ b -> b <> [] -> k (b ++ t) = None) ->
  star_lazy p (w ++ t) k = star_lazy p t k.
Proof.
  induction w as [|c w IH]; intros Hp Hk; [reflexivity|].
  simpl in Hp. apply andb_prop in Hp as [Hc Hw].
  change ((c :: w) ++ t) with (c :: w ++ t).
  cbn [star_lazy]. change (c :: w ++ t) with ((c :: w) ++ t).
  rewrite (Hk [] (c :: w) eq_refl) by discriminate.
  rewrite Hc. apply IH; [assumption|].
  intros a b -> Hb. apply (Hk (c :: a) b); [reflexivity | assumption].
Qed.

Lemma star_lazy_inv p s k x :
  star_lazy p s k = Some x ->
  exists a b, s = a ++ b /\ forallb p a = true /\ k b = Some x.
Proof.
  induction s as [|c s IH]; cbn [star_lazy]; intros H.
  - destruct (k []) eqn:Hk; [|discriminate].
    exists [], []. injection H as <-. auto.
  - destruct (k (c :: s)) eqn:Hk.
    + injection H as <-. exists [], (c :: s). auto.
    + destruct (p c) eqn:Hc; [|discriminate].
      destruct (IH H) as (a & b & -> & Ha & Hb).
      exists (c :: a), b. simpl. rewrite Hc. auto.
Qed.
End Stars.

Section Match.
Variable R : Type.
Implicit Types (k : jsstring -> list jsstring -> option R).

(** Whatever a regex matches is a prefix of the input, and the
    continuation ran on what was left. *)
Lemma rmatch_inv r : forall s caps k x,
  rmatch r s caps k = Some x ->
  exists a b caps', s = a ++ b /\ k b caps' = Some x.
Proof.
  induction r as [|cl|cl|cl|cl|r1 IH1 r2 IH2|r IH]; intros s caps k x H;
    cbn [rmatch] in H.
  - exists [], s, caps. auto.
  - destruct s as [|c s]; [discriminate|].
    destruct (accepts cl c); [|discriminate].
    exists [c], s, caps. auto.
  - apply star_greedy_inv in H as (a & b & -> & _ & H). eauto.
  - apply star_lazy_inv in H as (a & b & -> & _ & H). eauto.
  - destruct s as [|c s]; [discriminate|].
    destruct (accepts cl c); [|discriminate].
    apply star_greedy_inv in H as (a & b & -> & _ & H).
    exists (c :: a), b, caps. auto.
  - apply IH1 in H as (a & b & caps1 & -> & H).
    apply IH2 in H as (a' & b' & caps2 & -> & H).
    exists (a ++ a'), b', caps2. rewrite <- app_assoc. auto.
  - apply IH in H as (a & b & caps1 & -> & H). eauto.
Qed.

Lemma rlit_match l : forall s caps k,
  rmatch (RLit l) (l ++ s) caps k = k s caps.
Proof.
  induction l as [|c l IH]; intros s caps k; [reflexivity|].
  cbn [RLit rmatch app accepts]. rewrite N.eqb_refl. apply IH.
Qed.

Lemma rlit_inv l : forall s caps k x,
  rmatch (RLit l) s caps k = Some x ->
  exists s', s = l ++ s' /\ k s' caps = Some x.
Proof.
  induction l as [|c l IH]; intros s caps k x H; cbn [RLit rmatch accepts] in H.
  - exists s. auto.
  - destruct s as [|d s]; [discriminate|].
    destruct (N.eqb_spec d c) as [->|]; [|discriminate].
    apply IH in H as (s' & -> & H). exists s'. auto.
Qed.
End Match.

Lemma firstn_prefix (a b : jsstring) :
  firstn (length (a ++ b) - length b) (a ++ b) = a.
Proof.
  rewrite length_app, Nat.add_sub.
  rewrite firstn_app, Nat.sub_diag, firstn_all. simpl. apply app_nil_r.
Qed.

(** Scanning steps over a stretch of text at which no match starts. *)
Lemma search_skip re p t :
  (forall a b, p = a ++ b -> b <> [] -> match_at re (b ++ t) = None) ->
  search re (p ++ t) =
  match search re t with
  | Some f => Some (Found (p ++ before f) (matched f) (groups f) (after f))
  | None => None
  end.
Proof.
  induction p as [|c p IH]; intros H.
  - simpl. destruct (search re t) as [[]|]; reflexivity.
  - change ((c :: p) ++ t) with (c :: p ++ t). cbn [search].
    change (c :: p ++ t) with ((c :: p) ++ t).
    rewrite (H [] (c :: p) eq_refl) by discriminate.
    rewrite IH.
    + destruct (search re t); reflexivity.
    + intros a b -> Hb. apply (H (c :: a) b); [reflexivity | assumption].
Qed.

Lemma search_here re s rest caps :
  match_at re s = Some (rest, caps) ->
  search re s = Some (Found [] (firstn (length s - length rest) s) caps rest).
Proof. intros H. destruct s; cbn [search]; now rewrite H. Qed.

Lemma search_found_later re a b x :
  match_at re b = Some x -> search re (a ++ b) <> None.
Proof.
  intros H. induction a as [|c a IH]; simpl.
  - destruct x. rewrite (search_here _ _ H). discriminate.
  - destruct (match_at re (c :: a ++ b)) as [[]|]; [discriminate|].
    destruct (search re (a ++ b)); [discriminate | contradiction].
Qed.

Lemma search_none_all re s :
  (forall a b, s = a ++ b -> match_at re b = None) ->
  search re s = None.
Proof.
  induction s as [|c s IH]; intros H; cbn [search].
  - now rewrite (H [] [] eq_refl).
  - rewrite (H [] (c :: s) eq_refl), IH; [reflexivity|].
    intros a b ->. apply (H (c :: a) b). reflexivity.
Qed.

End MatcherFacts.

(** ** The cue regexes on scripts of well-formed blocks *)

Module CueFacts.
Import JS Cue Script MatcherFacts.

Lemma marker_app ds rest :
  marker ds ++ rest = js "[IMAGE " ++ ds ++ 93%N :: rest.
Proof.
  unfold marker, markerBody. simpl. now rewrite <- app_assoc.
Qed.

Lemma isNumber_inv ds :
  isNumber ds = true ->
  exists d ds', ds = d :: ds' /\ is_digit d = true /\ forallb is_digit ds' = true.
Proof.
  unfold isNumber. intros H. apply andb_prop in H as [Hlen Hd].
  destruct ds as [|d ds']; [discriminate|].
  simpl in Hd. apply andb_prop in Hd as [? ?]. eauto.
Qed.

Lemma digit_not_close c : is_digit c = true -> N.eqb c 93 = false.
Proof.
  unfold is_digit. intros H. apply andb_prop in H as [_ H].
  apply N.leb_le in H. apply N.eqb_neq. lia.
Qed.

Lemma digit_not_bracket c : is_digit c = true -> c <> bracket.
Proof.
  unfold is_digit, bracket. intros H. apply andb_prop in H as [_ H].
  apply N.leb_le in H. lia.
Qed.

Section Marker.
Variable R : Type.
Implicit Types (k : jsstring -> list jsstring -> option R).

Lemma marker_match ds rest caps k :
  isNumber ds = true ->
  rmatch markerRe (marker ds ++ rest) caps k = k rest caps.
Proof.
  intros Hn. destruct (isNumber_inv _ Hn) as (d & ds' & -> & Hd & Hds).
  rewrite marker_app. unfold markerRe. cbn [rmatch].
  rewrite rlit_match. cbn [app accepts]. rewrite Hd.
  rewrite star_greedy_app_fail; [|assumption|].
  - rewrite star_greedy_stop; [|intros c t' [= <- _]; reflexivity].
    cbn [accepts]. now rewrite N.eqb_refl.
  - intros a b -> Hb. destruct b as [|c b]; [contradiction|].
    rewrite forallb_app in Hds. apply andb_prop in Hds as [_ Hds].
    simpl in Hds. apply andb_prop in Hds as [Hc _].
    cbn [app accepts]. now rewrite (digit_not_close _ Hc).
Qed.

Lemma marker_inv s caps k x :
  rmatch markerRe s caps k = Some x ->
  exists ds rest,
    isNumber ds = true /\ s = marker ds ++ rest /\ k rest caps = Some x.
Proof.
  unfold markerRe. cbn [rmatch]. intros H.
  apply rlit_inv in H as (s1 & -> & H).
  destruct s1 as [|d s1]; [discriminate|].
  cbn [accepts] in H. destruct (is_digit d) eqn:Hd; [|discriminate].
  apply star_greedy_inv in H as (a & b & -> & Ha & H).
  destruct b as [|c b]; [discriminate|].
  cbn [accepts] in H. destruct (N.eqb_spec c 93) as [->|]; [|discriminate].
  exists (d :: a), b. split; [|split].
  - unfold isNumber. simpl. rewrite Hd. exact Ha.
  - rewrite marker_app. reflexivity.
  - assumption.
Qed.
End Marker.

Lemma marker_body_no_bracket ds :
  isNumber ds = true -> ~ In bracket (markerBody ds).
Proof.
  intros Hn Hin. unfold isNumber in Hn. apply andb_prop in Hn as [_ Hd].
  unfold markerBody in Hin. apply in_app_or in Hin as [Hin|Hin].
  - simpl in Hin. unfold bracket in Hin.
    repeat (destruct Hin as [Hin|Hin]; [discriminate|]). contradiction.
  - apply in_app_or in Hin as [Hin|Hin].
    + rewrite forallb_forall in Hd. apply Hd in Hin.
      now apply digit_not_bracket in Hin.
    + simpl in Hin. destruct Hin as [Hin|[]]. discriminate.
Qed.

(** A marker that starts inside a stretch of text followed by a bracket
    lies wholly inside that stretch. *)
Lemma marker_within b t ds rest :
  isNumber ds = true -> b <> [] -> opensWithBracket t ->
  b ++ t = marker ds ++ rest ->
  exists l, b = marker ds ++ l.
Proof.
  intros Hn Hb Ht Heq.
  apply app_eq_app in Heq as [l [[-> _]|[Hm Hl]]]; [eauto|].
  destruct l as [|c l].
  - exists []. rewrite app_nil_r in *. now rewrite Hm.
  - exfalso. destruct Ht as [->|[t' ->]]; [discriminate|].
    injection Hl as <- _.
    destruct b as [|c0 b]; [contradiction|].
    unfold marker in Hm. injection Hm as _ Hm.
    apply (marker_body_no_bracket Hn). rewrite Hm.
    apply in_or_app. right. left. reflexivity.
Qed.

Lemma markerFree_suffix a b :
  markerFree (a ++ b) = true -> markerFree b = true.
Proof.
  unfold markerFree, test. intros H.
  destruct (search markerRe b) as [f|] eqn:Hs; [|reflexivity].
  exfalso.
  assert (Hex : exists a' b' x, b = a' ++ b' /\ match_at markerRe b' = Some x).
  { clear H. revert f Hs. induction b as [|c b IH]; intros f Hs; cbn [search] in Hs.
    - destruct (match_at markerRe []) eqn:Hm; [|discriminate].
      exists [], [], p. auto.
    - destruct (match_at markerRe (c :: b)) eqn:Hm.
      + exists [], (c :: b), p. auto.
      + destruct (search markerRe b) eqn:Hs'; [|discriminate].
        destruct (IH _ eq_refl) as (a' & b' & x & -> & Hx).
        exists (c :: a'), b', x. auto. }
  destruct Hex as (a' & b' & x & -> & Hx).
  rewrite app_assoc in H.
  pose proof (search_found_later markerRe (a ++ a') _ Hx) as Hne.
  destruct (search markerRe ((a ++ a') ++ b')); [discriminate | contradiction].
Qed.

(** No regex that begins with the marker matches at a position inside
    marker-free prose. *)
Lemma prose_no_match (R : Type) a b t caps
      (k : jsstring -> list jsstring -> option R) :
  markerFree (a ++ b) = true -> b <> [] -> opensWithBracket t ->
  rmatch markerRe (b ++ t) caps k = None.
Proof.
  intros Hfree Hb Ht.
  destruct (rmatch markerRe (b ++ t) caps k) as [x|] eqn:Hm; [|reflexivity].
  exfalso. apply marker_inv in Hm as (ds & rest & Hn & Heq & _).
  destruct (marker_within Hn Hb Ht Heq) as [l ->].
  assert (Hx : match_at markerRe (marker ds ++ l) = Some (l, [])).
  { unfold match_at. now rewrite marker_match. }
  pose proof (search_found_later markerRe a _ Hx) as Hne.
  unfold markerFree, test in Hfree.
  destruct (search markerRe (a ++ marker ds ++ l)); [discriminate | contradiction].
Qed.

Lemma blockText_opens bs : opensWithBracket (flat_map blockText bs).
Proof.
  destruct bs as [|b bs]; [now left|]. right.
  simpl. unfold blockText, marker. simpl. eauto.
Qed.

Lemma strippedBlock_opens bs : opensWithBracket (flat_map strippedBlock bs).
Proof.
  destruct bs as [|b bs]; [now left|]. right.
  simpl. unfold strippedBlock, marker. simpl. eauto.
Qed.

End CueFacts.

Module BlockFacts.
Import JS Cue Script MatcherFacts CueFacts.

Lemma dot_not_lf c : is_dot c = true -> c <> LF.
Proof. intros H ->. discriminate. Qed.

Lemma space_not_bracket c : is_space c = true -> c <> bracket.
Proof. intros H ->. discriminate. Qed.

Lemma existsb_false_forallb (l : jsstring) :
  existsb nonSpace l = false -> forallb is_space l = true.
Proof.
  induction l as [|c l IH]; simpl; [reflexivity|].
  unfold nonSpace at 1. intros H. apply orb_false_elim in H as [Hc Hl].
  apply negb_false_iff in Hc. now rewrite Hc, IH.
Qed.

(** A non-blank line is some text ending in a non-space character,
    followed by trailing spaces. *)
Lemma split_trailing q :
  existsb nonSpace q = true ->
  exists core x tw,
    q = core ++ x :: tw /\ is_space x = false /\ forallb is_space tw = true.
Proof.
  induction q as [|c q IH]; simpl; [discriminate|].
  intros H. destruct (existsb nonSpace q) eqn:Hq.
  - destruct (IH eq_refl) as (core & x & tw & -> & Hx & Htw).
    exists (c :: core), x, tw. auto.
  - rewrite orb_false_r in H. apply negb_true_iff in H.
    exists [], c, q. auto using existsb_false_forallb.
Qed.

Lemma suffix_keeps_last (a b core : jsstring) x :
  a ++ b = core ++ [x] -> b <> [] -> exists b', b = b' ++ [x].
Proof.
  intros Heq Hb. destruct (exists_last Hb) as (b' & y & ->).
  rewrite app_assoc in Heq. apply app_inj_tail in Heq as [_ ->]. eauto.
Qed.

Section Continuations.
Variable R : Type.
Implicit Types (k : jsstring -> list jsstring -> option R).

(** Greedy [\s*] that must be followed by a line feed finds none
    inside a non-blank line. *)
Lemma greedy_space_no_lf q t (k : jsstring -> option R) :
  forallb is_dot q = true -> existsb nonSpace q = true ->
  (forall c s, c <> LF -> k (c :: s) = None) ->
  star_greedy is_space (q ++ t) k = None.
Proof.
  intros Hdot Hns Hk. induction q as [|c q IH]; [discriminate|].
  simpl in Hdot, Hns. apply andb_prop in Hdot as [Hc Hq].
  apply dot_not_lf in Hc.
  cbn [app star_greedy]. destruct (is_space c) eqn:Hsp.
  - unfold nonSpace at 1 in Hns. rewrite Hsp in Hns. simpl in Hns.
    rewrite (IH Hq Hns). now apply Hk.
  - now apply Hk.
Qed.

(** [\s*\n] right after the marker of a block takes the line feed
    that ends the marker line and nothing more. *)
Lemma marker_line_end r q t caps k :
  forallb is_dot q = true -> existsb nonSpace q = true ->
  rmatch (RSeq (RStar CSpace) (RSeq (RChar (CLit LF)) r)) (LF :: q ++ t) caps k =
  rmatch r (q ++ t) caps k.
Proof.
  intros Hdot Hns. cbn [rmatch star_greedy].
  change (accepts CSpace LF) with true. cbv iota.
  change (accepts CSpace) with is_space.
  rewrite greedy_space_no_lf; try assumption.
  - change (accepts (CLit LF) LF) with true. reflexivity.
  - intros c s Hc. cbn [accepts]. now apply N.eqb_neq in Hc as ->.
Qed.
End Continuations.

(** [\s*\n] at the end of a line always finds a line feed, and leaves
    a suffix of what follows the line. *)
Lemma line_end tw rest caps :
  forallb is_space tw = true -> forallb is_dot tw = true ->
  exists w r',
    rmatch (RSeq (RStar CSpace) (RChar (CLit LF))) (tw ++ LF :: rest) caps
      (fun s c => Some (s, c)) = Some (r', caps) /\
    rest = w ++ r' /\ forallb is_space w = true.
Proof.
  intros Hsp Hdot. cbn [rmatch]. change (accepts CSpace) with is_space.
  set (k := fun s' : jsstring => _).
  assert (Hk : k (LF :: rest) = Some (rest, caps)).
  { unfold k. change (accepts (CLit LF) LF) with true. reflexivity. }
  destruct (star_greedy_some is_space tw _ k Hsp Hk) as [y Hy].
  rewrite Hy. apply star_greedy_inv in Hy as (a & b & Heq & Ha & Hb).
  unfold k in Hb. destruct b as [|c b]; [discriminate|].
  cbn [accepts] in Hb. destruct (N.eqb_spec c LF) as [->|]; [|discriminate].
  injection Hb as <-.
  apply app_eq_app in Heq as [l [[-> Hl]|[-> Hl]]].
  - destruct l as [|c l].
    + injection Hl as ->. exists [], rest. auto.
    + exfalso. injection Hl as <- _.
      rewrite forallb_app in Hdot. apply andb_prop in Hdot as [_ Hdot].
      simpl in Hdot. discriminate.
  - destruct l as [|c l].
    + injection Hl as ->. exists [], b. auto.
    + injection Hl as <- ->. exists (l ++ [LF]), b. split; [|split].
      * reflexivity.
      * now rewrite <- app_assoc.
      * rewrite forallb_app in Ha. apply andb_prop in Ha as [_ Ha].
        simpl in Ha. rewrite forallb_app, Ha. reflexivity.
Qed.

Lemma trimStart_spaces w s :
  forallb is_space w = true -> trimStart (w ++ s) = trimStart s.
Proof.
  induction w as [|c w IH]; simpl; [reflexivity|].
  intros H. apply andb_prop in H as [-> Hw]. auto.
Qed.

Lemma trim_trailing s tw :
  forallb is_space tw = true -> trim (s ++ tw) = trim s.
Proof.
  intros H. unfold trim, trimEnd. rewrite rev_app_distr.
  rewrite trimStart_spaces; [reflexivity|].
  rewrite forallb_forall in *. intros c Hc. apply H. now apply in_rev.
Qed.

(** The prompt regex on a well-formed block: it matches at the marker,
    captures the prompt line up to its trailing spaces, and stops after a
    line feed of the space run that follows the prompt. *)
Lemma prompt_block ds q rest :
  isNumber ds = true -> isPromptLine q = true ->
  exists core w r',
    match_at promptRegex (marker ds ++ LF :: q ++ LF :: rest) = Some (r', [core]) /\
    trim core = trim q /\ rest = w ++ r' /\ forallb is_space w = true.
Proof.
  intros Hn Hq. unfold isPromptLine in Hq. apply andb_prop in Hq as [Hdot Hns].
  destruct (split_trailing _ Hns) as (core & x & tw & -> & Hx & Htw).
  assert (Hdot' := Hdot). rewrite forallb_app in Hdot'.
  apply andb_prop in Hdot' as [Hcore Hxtw]. simpl in Hxtw.
  apply andb_prop in Hxtw as [Hxd Htwd].
  destruct (line_end tw rest [core ++ [x]] Htw Htwd) as (w & r' & Hend & Hrest & Hw).
  exists (core ++ [x]), w, r'. split; [|split; [|split]]; try assumption.
  - unfold match_at, promptRegex.
    change (rmatch (RSeq markerRe ?r) ?s ?c ?k) with
      (rmatch markerRe s c (fun s' c' => rmatch r s' c' k)).
    rewrite marker_match by assumption.
    rewrite marker_line_end by assumption.
    change (rmatch (RSeq (RGroup (RLazy CDot)) ?r) ?s ?c ?k) with
      (star_lazy is_dot s
         (fun s' => rmatch r s' (c ++ [firstn (length s - length s') s]) k)).
    replace ((core ++ x :: tw) ++ LF :: rest)
      with ((core ++ [x]) ++ tw ++ LF :: rest)
      by (now rewrite <- !app_assoc).
    rewrite star_lazy_app_fail.
    + apply star_lazy_here. rewrite firstn_prefix. exact Hend.
    + rewrite forallb_app, Hcore. simpl. now rewrite Hxd.
    + intros a b Heq Hb.
      destruct (suffix_keeps_last _ _ _ (eq_sym Heq) Hb) as [b' ->].
      cbn [rmatch]. change (accepts CSpace) with is_space.
      apply greedy_space_no_lf.
      * assert (Hall : forallb is_dot (a ++ b' ++ [x]) = true).
        { rewrite <- Heq, forallb_app, Hcore. simpl. now rewrite Hxd. }
        rewrite forallb_app in Hall. now apply andb_prop in Hall as [_ ?].
      * rewrite existsb_app. simpl. unfold nonSpace at 2. rewrite Hx.
        apply orb_true_r.
      * intros c s Hc. cbn [accepts]. now apply N.eqb_neq in Hc as ->.
  - replace (core ++ x :: tw) with ((core ++ [x]) ++ tw)
      by (now rewrite <- app_assoc).
    symmetry. now apply trim_trailing.
Qed.

(** The display regex on a well-formed block: it matches marker line
    and prompt line exactly and captures the marker. *)
Lemma display_block ds q rest :
  isNumber ds = true -> isPromptLine q = true ->
  match_at displayRegex (marker ds ++ LF :: q ++ LF :: rest) =
  Some (rest, [marker ds]).
Proof.
  intros Hn Hq. unfold isPromptLine in Hq. apply andb_prop in Hq as [Hdot Hns].
  unfold match_at, displayRegex.
  change (rmatch (RSeq (RGroup markerRe) ?r) ?s ?c ?k) with
    (rmatch markerRe s c
       (fun s' c' => rmatch r s' (c' ++ [firstn (length s - length s') s]) k)).
  rewrite marker_match by assumption.
  rewrite marker_line_end by assumption.
  cbn [rmatch]. change (accepts CDot) with is_dot.
  rewrite star_lazy_app_fail; [|assumption|].
  - cbn [star_lazy]. change (accepts (CLit LF) LF) with true. cbv iota.
    rewrite firstn_prefix. reflexivity.
  - intros a b -> Hb. destruct b as [|c b]; [contradiction|].
    rewrite forallb_app in Hdot. apply andb_prop in Hdot as [_ Hdot].
    simpl in Hdot. apply andb_prop in Hdot as [Hc _].
    apply dot_not_lf, N.eqb_neq in Hc. cbn [app accepts]. now rewrite Hc.
Qed.

End BlockFacts.

Module ScriptFacts.
Import JS Cue Script MatcherFacts CueFacts BlockFacts.

Lemma blockText_app b T :
  blockText b ++ T = marker (number b) ++ LF :: prompt b ++ LF :: (prose b ++ T).
Proof.
  unfold blockText. rewrite <- app_assoc. cbn [app].
  now rewrite <- app_assoc.
Qed.

Lemma wellFormed_inv b :
  wellFormed b = true ->
  isNumber (number b) = true /\ isPromptLine (prompt b) = true /\
  markerFree (prose b) = true.
Proof.
  unfold wellFormed. intros H. apply andb_prop in H as [H H3].
  apply andb_prop in H as [H1 H2]. auto.
Qed.

(** Text that follows a run of spaces inside prose-then-bracket is a
    suffix of the prose, then the bracket. *)
Lemma space_run_within w r' p T :
  forallb is_space w = true -> opensWithBracket T ->
  p ++ T = w ++ r' ->
  exists l, p = w ++ l /\ r' = l ++ T.
Proof.
  intros Hw HT Heq.
  apply app_eq_app in Heq as [l [[-> ->]|[-> Hl]]]; [eauto|].
  destruct l as [|c l].
  - exists []. simpl in Hl. subst. rewrite !app_nil_r. auto.
  - exfalso. destruct HT as [->|[T' ->]]; [discriminate|].
    injection Hl as <- _. rewrite forallb_app in Hw.
    apply andb_prop in Hw as [_ Hw]. simpl in Hw. discriminate.
Qed.

(** The first match of the prompt regex in a script is its first block. *)
Lemma search_prompt_block p0 b T :
  markerFree p0 = true -> wellFormed b = true -> opensWithBracket T ->
  exists core m l,
    search promptRegex (p0 ++ blockText b ++ T) =
      Some (Found p0 (bracket :: m) [core] (l ++ T)) /\
    trim core = trim (prompt b) /\ markerFree l = true /\
    length l <= length (prose b).
Proof.
  intros Hp0 Hb HT. destruct (wellFormed_inv _ Hb) as (Hn & Hq & Hpr).
  rewrite blockText_app.
  destruct (@prompt_block (number b) (prompt b) (prose b ++ T) Hn Hq) as (core & w & r' & Hm & Htrim & Hrest & Hw).
  destruct (space_run_within _ _ _ Hw HT Hrest) as (l & Hl & ->).
  rewrite search_skip.
  - rewrite (search_here _ _ Hm). cbn [before matched groups after].
    rewrite app_nil_r.
    replace (marker (number b) ++ LF :: prompt b ++ LF :: prose b ++ T)
      with ((marker (number b) ++ LF :: prompt b ++ LF :: w) ++ l ++ T).
    + rewrite firstn_prefix. unfold marker at 1. cbn [app].
      exists core, (markerBody (number b) ++ LF :: prompt b ++ LF :: w), l.
      repeat split; try assumption.
      * rewrite Hl in Hpr. now apply markerFree_suffix in Hpr.
      * rewrite Hl, length_app. lia.
    + rewrite Hl. rewrite <- !app_assoc. cbn [app].
      now rewrite <- !app_assoc.
  - intros a c -> Hc. unfold match_at, promptRegex.
    change (rmatch (RSeq markerRe ?r) ?s ?cs ?k) with
      (rmatch markerRe s cs (fun s' c' => rmatch r s' c' k)).
    apply prose_no_match with (a := a); try assumption.
    right. unfold marker, bracket. eexists. reflexivity.
Qed.

Lemma search_display_block p0 b T :
  markerFree p0 = true -> wellFormed b = true ->
  exists m,
    search displayRegex (p0 ++ blockText b ++ T) =
      Some (Found p0 (bracket :: m) [marker (number b)] (prose b ++ T)).
Proof.
  intros Hp0 Hb. destruct (wellFormed_inv _ Hb) as (Hn & Hq & Hpr).
  rewrite blockText_app. rewrite search_skip.
  - rewrite (search_here _ _ (@display_block (number b) (prompt b) (prose b ++ T) Hn Hq)).
    cbn [before matched groups after]. rewrite app_nil_r.
    replace (marker (number b) ++ LF :: prompt b ++ LF :: prose b ++ T)
      with ((marker (number b) ++ LF :: prompt b ++ [LF]) ++ prose b ++ T).
    + rewrite firstn_prefix. unfold marker at 1. cbn [app]. eauto.
    + rewrite <- !app_assoc. cbn [app]. now rewrite <- !app_assoc.
  - intros a c -> Hc. unfold match_at, displayRegex.
    change (rmatch (RSeq (RGroup markerRe) ?r) ?s ?cs ?k) with
      (rmatch markerRe s cs
         (fun s' c' => rmatch r s' (c' ++ [firstn (length s - length s') s]) k)).
    apply prose_no_match with (a := a); try assumption.
    right. unfold marker, bracket. eexists. reflexivity.
Qed.

(** Marker-free text holds no match of a regex that begins with the
    marker. *)
Lemma search_prompt_prose p0 :
  markerFree p0 = true -> search promptRegex p0 = None.
Proof.
  intros Hp0. apply search_none_all. intros a b ->.
  destruct b as [|c b]; [reflexivity|].
  unfold match_at, promptRegex.
  change (rmatch (RSeq markerRe ?r) ?s ?cs ?k) with
    (rmatch markerRe s cs (fun s' c' => rmatch r s' c' k)).
  rewrite <- (app_nil_r (c :: b)).
  apply prose_no_match with (a := a); [assumption | discriminate | now left].
Qed.

Lemma search_display_prose p0 :
  markerFree p0 = true -> search displayRegex p0 = None.
Proof.
  intros Hp0. apply search_none_all. intros a b ->.
  destruct b as [|c b]; [reflexivity|].
  unfold match_at, displayRegex.
  change (rmatch (RSeq (RGroup markerRe) ?r) ?s ?cs ?k) with
    (rmatch markerRe s cs
       (fun s' c' => rmatch r s' (c' ++ [firstn (length s - length s') s]) k)).
  rewrite <- (app_nil_r (c :: b)).
  apply prose_no_match with (a := a); [assumption | discriminate | now left].
Qed.

Lemma length_blockText_pos b T : length (prose b ++ T) < length (blockText b ++ T).
Proof.
  rewrite blockText_app, !length_app. cbn [length].
  rewrite length_app. cbn [length]. rewrite length_app. lia.
Qed.

Lemma matchAll_script bs : forall p0 fuel,
  markerFree p0 = true -> forallb wellFormed bs = true ->
  length (script p0 bs) < fuel ->
  map (fun m => trim (nth 0 (groups m) [])) (matchAll_fuel fuel promptRegex (script p0 bs)) =
  map (fun b => trim (prompt b)) bs.
Proof.
  induction bs as [|b bs IH]; intros p0 fuel Hp0 Hbs Hfuel;
    (destruct fuel as [|fuel]; [lia|]); unfold script in *; cbn [flat_map] in *.
  - cbn [matchAll_fuel]. rewrite app_nil_r.
    now rewrite search_prompt_prose.
  - cbn [forallb] in Hbs. apply andb_prop in Hbs as [Hb Hbs].
    destruct (@search_prompt_block p0 b (flat_map blockText bs) Hp0 Hb (blockText_opens bs))
      as (core & m & l & Hs & Htrim & Hl & Hlen).
    cbn [matchAll_fuel]. rewrite Hs.
    cbn [matched after groups map nth]. rewrite Htrim. f_equal.
    apply IH; try assumption.
    pose proof (length_blockText_pos b (flat_map blockText bs)) as Hlt.
    rewrite !length_app in *. lia.
Qed.

Lemma replace_script bs : forall p0 fuel,
  markerFree p0 = true -> forallb wellFormed bs = true ->
  length (script p0 bs) < fuel ->
  replace_fuel fuel displayRegex (fun caps => nth 0 caps [] ++ [LF]) (script p0 bs) =
  strippedScript p0 bs.
Proof.
  induction bs as [|b bs IH]; intros p0 fuel Hp0 Hbs Hfuel;
    (destruct fuel as [|fuel]; [lia|]);
    unfold script, strippedScript in *; cbn [flat_map] in *.
  - cbn [replace_fuel]. rewrite app_nil_r.
    now rewrite search_display_prose.
  - cbn [forallb] in Hbs. apply andb_prop in Hbs as [Hb Hbs].
    destruct (wellFormed_inv _ Hb) as (_ & _ & Hpr).
    destruct (@search_display_block p0 b (flat_map blockText bs) Hp0 Hb) as (m & Hs).
    cbn [replace_fuel]. rewrite Hs.
    cbn [matched after groups before nth].
    rewrite IH; try assumption.
    + unfold strippedBlock. rewrite <- !app_assoc. reflexivity.
    + pose proof (length_blockText_pos b (flat_map blockText bs)) as Hlt.
      rewrite !length_app in *. lia.
Qed.

(** The prompt regex needs two line feeds after the marker. *)
Lemma need_two_newlines s x :
  match_at promptRegex s = Some x -> 2 <= newlines s.
Proof.
  unfold match_at, promptRegex.
  change (rmatch (RSeq markerRe ?r) ?s ?cs ?k) with
    (rmatch markerRe s cs (fun s' c' => rmatch r s' c' k)).
  intros H. apply marker_inv in H as (ds & rest & _ & -> & H).
  cbn [rmatch] in H.
  apply star_greedy_inv in H as (a1 & b1 & -> & _ & H).
  destruct b1 as [|c1 b1]; [discriminate|]. cbn [accepts] in H.
  destruct (N.eqb_spec c1 LF) as [->|]; [|discriminate].
  apply star_lazy_inv in H as (a2 & b2 & -> & _ & H).
  apply star_greedy_inv in H as (a3 & b3 & -> & _ & H).
  destruct b3 as [|c3 b3]; [discriminate|]. cbn [accepts] in H.
  destruct (N.eqb_spec c3 LF) as [->|]; [|discriminate].
  unfold newlines.
  repeat (rewrite ?filter_app, ?length_app; cbn [filter]).
  change (N.eqb LF LF) with true. cbn [length].
  repeat (rewrite ?filter_app, ?length_app; cbn [filter length]). lia.
Qed.

Lemma newlines_app a b : newlines (a ++ b) = newlines a + newlines b.
Proof. unfold newlines. now rewrite filter_app, length_app. Qed.

Lemma search_few_newlines s :
  newlines s < 2 -> search promptRegex s = None.
Proof.
  intros H. apply search_none_all. intros a b ->.
  destruct (match_at promptRegex b) as [x|] eqn:Hm; [|reflexivity].
  apply need_two_newlines in Hm. rewrite newlines_app in H. lia.
Qed.

Lemma newlines_marker ds : isNumber ds = true -> newlines (marker ds) = 0.
Proof.
  unfold isNumber. intros H. apply andb_prop in H as [_ H].
  change (marker ds) with ((bracket :: js "IMAGE ") ++ ds ++ [93%N]).
  rewrite !newlines_app.
  assert (Hd : newlines ds = 0).
  { unfold newlines. induction ds as [|d ds IH]; [reflexivity|].
    simpl in H. apply andb_prop in H as [Hd Hds]. cbn [filter].
    destruct (N.eqb_spec LF d) as [<-|]; [discriminate|]. auto. }
  rewrite Hd. reflexivity.
Qed.

(** A scan that meets, after marker-free text, a bracket-opening tail
    with fewer than two line feeds finds nothing. *)
Lemma matchAll_few_newlines p0 T :
  markerFree p0 = true -> opensWithBracket T -> newlines T < 2 ->
  matchAll promptRegex (p0 ++ T) = [].
Proof.
  intros Hp0 HT Hnl. unfold matchAll. cbn [matchAll_fuel].
  rewrite search_skip.
  - now rewrite search_few_newlines.
  - intros a b -> Hb. unfold match_at, promptRegex.
    change (rmatch (RSeq markerRe ?r) ?s ?cs ?k) with
      (rmatch markerRe s cs (fun s' c' => rmatch r s' c' k)).
    now apply prose_no_match with (a := a).
Qed.

End ScriptFacts.

(** ** Cue extraction and prompt stripping *)

Module CueClaims.
Import JS Cue Script MatcherFacts CueFacts BlockFacts ScriptFacts.

(** C5 at its failing input: a script that ends with a cue and its
    prompt line, the shape [trim] gives to any answer of the model that
    ends in a cue.  It holds one block, a marker line immediately
    followed by one prompt line, and [extractPrompts] returns no prompt
    for it; the narration keeps the marker and the prompt, and so does
    the display text.  The same script with the line feed that [trim]
    took away yields the prompt and a clean narration: the regexes
    want a line feed behind the prompt line and miss the end of the
    text. *)
Theorem extractPrompts_closing_cue :
  closingCue = pitch ++ marker (number lionBlock) ++ LF :: prompt lionBlock /\
  trim (closingCue ++ [LF]) = closingCue /\
  extractPrompts closingCue = [] /\
  length (extractPrompts closingCue) <> 1 /\
  stripBoth closingCue = closingCue /\
  stripPromptLines closingCue = closingCue /\
  extractPrompts (closingCue ++ [LF]) = [prompt lionBlock] /\
  stripBoth (closingCue ++ [LF]) = pitch.
Proof. vm_compute. repeat split; discriminate. Qed.

(** On a script made of marker-free prose and M blocks, each a marker,
    a line feed, a non-blank prompt line without line terminators and
    the line feed that ends it, [extractPrompts] returns the M prompt
    lines, trimmed, in document order. *)
Theorem extractPrompts_script intro bs :
  markerFree intro = true -> forallb wellFormed bs = true ->
  extractPrompts (script intro bs) = map (fun b => trim (prompt b)) bs /\
  length (extractPrompts (script intro bs)) = length bs.
Proof.
  intros Hintro Hbs.
  assert (H : extractPrompts (script intro bs) = map (fun b => trim (prompt b)) bs).
  { unfold extractPrompts, matchAll. apply matchAll_script; auto. }
  split; [exact H|].
  rewrite H. apply length_map.
Qed.

Lemma extractPrompts_script_witness :
  extractPrompts (script pitch [lionBlock; yachtBlock]) =
    [prompt lionBlock; prompt yachtBlock].
Proof.
  destruct (@extractPrompts_script pitch [lionBlock; yachtBlock])
    as (H1 & _); [vm_compute; reflexivity | vm_compute; reflexivity |].
  exact H1.
Defined.

(** C4 as stated fails: once the prompt line is gone, the line that
    followed it stands behind the marker and is extracted as a prompt. *)
Lemma stripPromptLines_rescan_finds_prompt :
  stripPromptLines (script pitch [lionBlock]) = strippedScript pitch [lionBlock] /\
  extractPrompts (stripPromptLines (script pitch [lionBlock])) =
    [js "Then continue the script..."] /\
  extractPrompts (stripPromptLines (script pitch [lionBlock])) <> [].
Proof. vm_compute. repeat split; discriminate. Qed.

(** C4, amended: on a script of well-formed blocks, [stripPromptLines]
    returns the script with every prompt line removed and every marker
    line kept; the re-scan of that output yields no prompt when fewer
    than two line feeds remain from the first marker on. *)
Theorem stripPromptLines_script intro bs :
  markerFree intro = true -> forallb wellFormed bs = true ->
  stripPromptLines (script intro bs) = strippedScript intro bs /\
  (newlines (flat_map strippedBlock bs) < 2 ->
   extractPrompts (stripPromptLines (script intro bs)) = []).
Proof.
  intros Hintro Hbs.
  assert (H : stripPromptLines (script intro bs) = strippedScript intro bs).
  { unfold stripPromptLines, replace. apply replace_script; auto. }
  split; [exact H|].
  intros Hnl. rewrite H. unfold extractPrompts, strippedScript.
  rewrite matchAll_few_newlines; auto using strippedBlock_opens.
Qed.

Lemma stripPromptLines_script_witness :
  stripPromptLines (script pitch [yachtBlock]) = strippedScript pitch [yachtBlock] /\
  extractPrompts (stripPromptLines (script pitch [yachtBlock])) = [].
Proof.
  destruct (@stripPromptLines_script pitch [yachtBlock]) as (H1 & H2);
    [vm_compute; reflexivity | vm_compute; reflexivity |].
  split.
  - exact H1.
  - apply H2. vm_compute. lia.
Defined.

End CueClaims.

(** ** The image fan-out *)

Module ImageClaims.
Import JS Gemini Image.

Section PromiseAllFacts.
Variable A : Type.
Implicit Types (ps : list (timed A)).

Lemma firstRejection_none ps :
  (forall p, In p ps -> exists v, outcome p = Fulfilled v) ->
  firstRejection ps = None.
Proof.
  induction ps as [|p ps IH]; intros H; [reflexivity|].
  cbn [firstRejection]. destruct (H p (or_introl eq_refl)) as [v ->].
  apply IH. intros q Hq. apply H. now right.
Qed.

Lemma firstRejection_some ps p e :
  In p ps -> outcome p = Rejected e -> firstRejection ps <> None.
Proof.
  induction ps as [|q ps IH]; intros Hin Hp; [contradiction|].
  cbn [firstRejection]. destruct Hin as [->|Hin].
  - rewrite Hp. destruct (firstRejection ps) as [[t' e']|];
      [destruct (settlesAt p <=? t')|]; discriminate.
  - specialize (IH Hin Hp). destruct (outcome q); [assumption|].
    destruct (firstRejection ps) as [[t' e']|];
      [destruct (settlesAt q <=? t')|]; discriminate.
Qed.

(** The rejection [Promise.all] reports is the earliest one. *)
Lemma firstRejection_earliest ps t e :
  firstRejection ps = Some (t, e) ->
  (exists p, In p ps /\ settlesAt p = t /\ outcome p = Rejected e) /\
  (forall q e', In q ps -> outcome q = Rejected e' -> t <= settlesAt q).
Proof.
  revert t e. induction ps as [|p ps IH]; intros t e H; [discriminate|].
  cbn [firstRejection] in H. destruct (outcome p) as [v|e0] eqn:Hp.
  - destruct (IH _ _ H) as [(q & Hq & Ht & He) Hmin]. split.
    + exists q. auto using in_cons.
    + intros q' e' [<-|Hin] Hq'; [congruence | eauto].
  - destruct (firstRejection ps) as [[t' e']|] eqn:Hps.
    + destruct (IH _ _ eq_refl) as [(q & Hq & Ht & He) Hmin].
      destruct (Nat.leb_spec (settlesAt p) t') as [Hle|Hlt];
        injection H as <- <-.
      * split; [exists p; auto using in_eq|].
        intros q' e'' [<-|Hin] Hq'; [lia|].
        specialize (Hmin _ _ Hin Hq'). lia.
      * split; [exists q; auto using in_cons|].
        intros q' e'' [<-|Hin] Hq'; [lia | eauto].
    + injection H as <- <-. split; [exists p; auto using in_eq|].
      intros q' e'' [<-|Hin] Hq'; [lia|].
      exfalso. exact (firstRejection_some _ _ Hin Hq' Hps).
Qed.

Lemma fulfilledValues_length ps :
  (forall p, In p ps -> exists v, outcome p = Fulfilled v) ->
  length (fulfilledValues ps) = length ps.
Proof.
  induction ps as [|p ps IH]; intros H; [reflexivity|].
  cbn [fulfilledValues]. destruct (H p (or_introl eq_refl)) as [v ->].
  cbn [length]. f_equal. apply IH. intros q Hq. apply H. now right.
Qed.

Lemma settles_before_max ps p :
  In p ps -> settlesAt p <= list_max (map (@settlesAt A) ps).
Proof.
  intros Hin.
  assert (H : Forall (fun k => k <= list_max (map (@settlesAt A) ps))
                (map (@settlesAt A) ps)) by now apply list_max_le.
  rewrite Forall_forall in H. apply H. now apply in_map.
Qed.
End PromiseAllFacts.

Lemma in_imagePromises env p :
  In p (imagePromises env) <-> exists i, i < fanOut /\ p = respond env i.
Proof.
  unfold imagePromises. rewrite in_map_iff. split.
  - intros (i & <- & Hi). apply in_seq in Hi. exists i. split; [lia | reflexivity].
  - intros (i & Hi & ->). exists i. split; [reflexivity|]. apply in_seq. lia.
Qed.

Lemma allFulfilled_in env :
  allFulfilled env ->
  forall p, In p (imagePromises env) -> exists v, outcome p = Fulfilled v.
Proof.
  intros H p Hp. apply in_imagePromises in Hp as (i & Hi & ->). now apply H.
Qed.

Lemma collectUrls_length rs : length (collectUrls rs) = payloadCount rs.
Proof.
  unfold payloadCount. induction rs as [|r rs IH]; [reflexivity|].
  cbn [collectUrls filter]. unfold toUrl, hasPayload.
  destruct (firstPart r) as [part|]; [destruct (inlineData part)|];
    cbn [length]; auto.
Qed.

Lemma payloadCount_le rs : payloadCount rs <= length rs.
Proof. unfold payloadCount. apply filter_length_le. Qed.

(** The run of the handler once input and credential have passed. *)
Lemma handleGenerateImage_validated env prompt st :
  blank prompt = false -> truthy (API_KEY env) = true ->
  handleGenerateImage env prompt st =
  let all := promiseAll (imagePromises env) in
  let st1 := {| imageUrls := []; isLoading := true; error := None |} in
  let st2 :=
    match outcome all with
    | Fulfilled responses => aggregate responses st1
    | Rejected e =>
        {| imageUrls := []; isLoading := true; error := Some (anErrorOccurred e) |}
    end in
  {| final := {| imageUrls := imageUrls st2; isLoading := false; error := error st2 |};
     effects := map Net (repeat (request prompt) fanOut);
     resumedAt := settlesAt all |}.
Proof.
  intros Hb Hk. unfold handleGenerateImage. rewrite Hb, Hk. reflexivity.
Qed.

Lemma aggregate_urls rs st :
  imageUrls st = [] ->
  imageUrls (aggregate rs st) = collectUrls rs.
Proof.
  intros Hst. unfold aggregate.
  destruct (collectUrls rs) as [|u us] eqn:Hu; cbn [length].
  - exact Hst.
  - change (0 <? S (length us)) with true. cbv iota.
    destruct (S (length us) <? 5); reflexivity.
Qed.

Lemma aggregate_error rs st :
  error st = None ->
  error (aggregate rs st) =
  if payloadCount rs =? 0 then Some nothingGenerated
  else if payloadCount rs <? 5 then Some (partialNotice (payloadCount rs))
  else None.
Proof.
  intros Hst. unfold aggregate. rewrite <- collectUrls_length.
  destruct (length (collectUrls rs)) as [|n] eqn:Hn; [reflexivity|].
  change (0 <? S n) with true. change (S n =? 0) with false. cbv iota.
  destruct (S n <? 5); [reflexivity | exact Hst].
Qed.

(** What the handler leaves when all five requests fulfil. *)
Lemma fulfilled_run env prompt st :
  blank prompt = false -> truthy (API_KEY env) = true -> allFulfilled env ->
  let responses := fulfilledValues (imagePromises env) in
  let run := handleGenerateImage env prompt st in
  length responses = 5 /\
  imageUrls (final run) = collectUrls responses /\
  error (final run) =
    (if payloadCount responses =? 0 then Some nothingGenerated
     else if payloadCount responses <? 5
          then Some (partialNotice (payloadCount responses))
          else None) /\
  resumedAt run = list_max (map (@settlesAt _) (imagePromises env)).
Proof.
  intros Hb Hk Hall responses run. unfold run.
  rewrite handleGenerateImage_validated by assumption.
  unfold promiseAll. rewrite firstRejection_none by now apply allFulfilled_in.
  cbn [final outcome imageUrls error resumedAt settlesAt].
  split; [|split; [|split]].
  - unfold responses. rewrite fulfilledValues_length by now apply allFulfilled_in.
    reflexivity.
  - now apply aggregate_urls.
  - now apply aggregate_error.
  - reflexivity.
Qed.

(** When the five requests have all answered, the number [s] of answers
    that carry an inline payload decides what is shown. *)
Lemma outcome_of_fulfilled_batch env prompt st :
  blank prompt = false -> truthy (API_KEY env) = true -> allFulfilled env ->
  let responses := fulfilledValues (imagePromises env) in
  let s := payloadCount responses in
  let st' := final (handleGenerateImage env prompt st) in
  length responses = 5 /\ s <= 5 /\
  imageUrls st' = collectUrls responses /\ length (imageUrls st') = s /\
  (showsAll st' <-> s = 5) /\
  (showsSome st' <-> 0 < s < 5) /\
  (showsNone st' <-> s = 0).
Proof.
  intros Hb Hk Hall responses s st'.
  destruct (@fulfilled_run env prompt st Hb Hk Hall) as (Hlen & Hurls & Herr & _).
  fold responses in Hlen, Hurls, Herr. fold s in Herr. fold st' in Hurls, Herr.
  assert (Hs : s <= 5) by (unfold s; rewrite <- Hlen; apply payloadCount_le).
  assert (Hcount : length (imageUrls st') = s)
    by (rewrite Hurls; apply collectUrls_length).
  assert (Hnil : imageUrls st' = [] <-> s = 0).
  { rewrite <- Hcount. destruct (imageUrls st'); cbn [length];
      split; intros; (reflexivity || discriminate). }
  split; [exact Hlen|]. split; [exact Hs|]. split; [exact Hurls|].
  split; [exact Hcount|]. split; [|split].
  - unfold showsAll. rewrite Hcount, Herr. split.
    + now intros [H5 _].
    + intros ->. split; reflexivity.
  - unfold showsSome. rewrite Hcount, Herr, Hnil. split.
    + intros [Hne He]. split; [lia|].
      destruct (Nat.eqb_spec s 0); [lia|].
      destruct (Nat.ltb_spec s 5); [assumption | discriminate].
    + intros [H0 H5]. split; [lia|].
      destruct (Nat.eqb_spec s 0); [lia|].
      destruct (Nat.ltb_spec s 5); [reflexivity | lia].
  - unfold showsNone. rewrite Herr, Hnil. split.
    + now intros [H0 _].
    + intros ->. split; reflexivity.
Qed.

(** When a request is refused, the handler ends in its [catch] clause:
    no image, the message of the exception, and none of the three
    outcomes. *)
Lemma outcome_of_rejected_batch env prompt st i e0 :
  blank prompt = false -> truthy (API_KEY env) = true ->
  i < fanOut -> outcome (respond env i) = Rejected e0 ->
  let st' := final (handleGenerateImage env prompt st) in
  imageUrls st' = [] /\
  (exists e, error st' = Some (anErrorOccurred e)) /\
  ~ showsAll st' /\ ~ showsSome st' /\ ~ showsNone st'.
Proof.
  intros Hb Hk Hi Hrej st'.
  assert (Hin : In (respond env i) (imagePromises env))
    by (apply in_imagePromises; eauto).
  destruct (firstRejection (imagePromises env)) as [[t e]|] eqn:Hfirst;
    [|now destruct (firstRejection_some _ _ Hin Hrej)].
  assert (Hurls : imageUrls st' = []).
  { unfold st'. rewrite handleGenerateImage_validated by assumption.
    unfold promiseAll. rewrite Hfirst. reflexivity. }
  assert (Herr : error st' = Some (anErrorOccurred e)).
  { unfold st'. rewrite handleGenerateImage_validated by assumption.
    unfold promiseAll. rewrite Hfirst. reflexivity. }
  split; [exact Hurls|]. split; [eauto|].
  unfold showsAll, showsSome, showsNone. rewrite Hurls, Herr.
  split; [|split].
  - intros [H _]. discriminate H.
  - intros [H _]. now apply H.
  - intros [_ H]. injection H as H. cbv in H. discriminate H.
Qed.

(** C1 as stated fails: with one request refused and the other four
    answering with a picture, four payloads have arrived, yet the
    component shows none of the three outcomes, neither under the
    reading [s = 4] (the answers that carry a payload) nor under the
    reading [s = 0] (the payloads the handler got to extract): it
    shows no image and the message of the refusal. *)
Lemma image_rejection_outside_outcomes :
  let st' := final (handleGenerateImage oneRejects (js "a wolf in a suit") idle) in
  payloadCount (fulfilledValues (imagePromises oneRejects)) = 4 /\
  imageUrls st' = [] /\
  error st' = Some (js "An error occurred: 429 quota exceeded") /\
  ~ showsAll st' /\ ~ showsSome st' /\ ~ showsNone st' /\
  ~ (showsSome st' <-> 0 < 4 < 5) /\
  ~ (showsNone st' <-> 0 = 0).
Proof.
  intros st'.
  assert (Hu : imageUrls st' = []) by reflexivity.
  assert (He : error st' = Some (js "An error occurred: 429 quota exceeded"))
    by reflexivity.
  assert (H1 : ~ showsAll st') by (intros [H _]; rewrite Hu in H; discriminate H).
  assert (H2 : ~ showsSome st') by (intros [H _]; now apply H).
  assert (H3 : ~ showsNone st').
  { intros [_ H]. rewrite He in H. injection H as H. cbv in H. discriminate H. }
  split; [reflexivity|]. split; [exact Hu|]. split; [exact He|].
  split; [exact H1|]. split; [exact H2|]. split; [exact H3|]. split.
  - intros [_ H]. apply H2, H. lia.
  - intros [_ H]. apply H3, H. reflexivity.
Qed.

(** C1, amended: for a batch whose five requests all fulfil, with [s]
    the number of answers that carry an inline payload, the component
    shows all five images and no notice iff [s = 5], shows [s] images
    with the [generated s out of 5] notice iff [0 < s < 5], and shows
    nothing but the failure notice iff [s = 0]; for a batch with a
    refused request it shows none of the three: no image, and the
    message of the exception. *)
Theorem image_outcome_by_count env prompt st :
  blank prompt = false -> truthy (API_KEY env) = true ->
  let st' := final (handleGenerateImage env prompt st) in
  (allFulfilled env ->
   let responses := fulfilledValues (imagePromises env) in
   let s := payloadCount responses in
   length responses = 5 /\ s <= 5 /\
   imageUrls st' = collectUrls responses /\ length (imageUrls st') = s /\
   (showsAll st' <-> s = 5) /\
   (showsSome st' <-> 0 < s < 5) /\
   (showsNone st' <-> s = 0)) /\
  (forall i e0,
     i < fanOut -> outcome (respond env i) = Rejected e0 ->
     imageUrls st' = [] /\
     (exists e, error st' = Some (anErrorOccurred e)) /\
     ~ showsAll st' /\ ~ showsSome st' /\ ~ showsNone st').
Proof.
  intros Hb Hk st'. split.
  - intros Hall. exact (@outcome_of_fulfilled_batch env prompt st Hb Hk Hall).
  - intros i e0 Hi Hrej.
    exact (@outcome_of_rejected_batch env prompt st i e0 Hb Hk Hi Hrej).
Qed.

Lemma image_outcome_by_count_witness :
  showsSome (final (handleGenerateImage allAnswer (js "a wolf in a suit") idle)) /\
  ~ showsSome (final (handleGenerateImage oneRejects (js "a wolf in a suit") idle)).
Proof.
  split.
  - destruct (@image_outcome_by_count allAnswer (js "a wolf in a suit") idle)
      as [Hall _]; [vm_compute; reflexivity | vm_compute; reflexivity |].
    destruct Hall as (_ & _ & _ & _ & _ & H & _);
      [intros i Hi; eexists; reflexivity|].
    apply H. vm_compute. lia.
  - destruct (@image_outcome_by_count oneRejects (js "a wolf in a suit") idle)
      as [_ Hrej]; [vm_compute; reflexivity | vm_compute; reflexivity |].
    destruct (Hrej 0 (ErrorObj (js "429 quota exceeded")))
      as (_ & _ & _ & H & _); [unfold fanOut; lia | reflexivity |].
    exact H.
Defined.

(** C2 as stated fails: with one request refused at instant 1 and the
    other four answering at instant 9, the handler is back at instant 1,
    shows no image and reports the refusal. *)
Lemma image_abort_on_first_rejection :
  let run := handleGenerateImage oneRejects (js "a wolf in a suit") idle in
  ~ waitedForAll oneRejects run /\
  resumedAt run = 1 /\
  imageUrls (final run) = [] /\
  error (final run) = Some (js "An error occurred: 429 quota exceeded").
Proof.
  split; [|vm_compute; auto].
  intros H. specialize (H 1). vm_compute in H.
  assert (H' : 9 <= 1) by (apply H; lia). lia.
Qed.

(** C2, amended: the five requests are awaited with [Promise.all].
    When all five fulfil, the result is produced only after the last of
    them has settled, and an answer without inline payload counts as
    one missing image, never as an error of the batch.  When a request
    rejects, the handler resumes at the earliest rejection, without
    waiting for the others, shows no image and reports that error. *)
Theorem image_fanout_settlement env prompt st :
  blank prompt = false -> truthy (API_KEY env) = true ->
  let run := handleGenerateImage env prompt st in
  (allFulfilled env ->
     waitedForAll env run /\
     imageUrls (final run) = collectUrls (fulfilledValues (imagePromises env)) /\
     length (imageUrls (final run)) =
       payloadCount (fulfilledValues (imagePromises env)) /\
     (forall e, error (final run) <> Some (anErrorOccurred e))) /\
  (forall i e0,
     i < fanOut -> outcome (respond env i) = Rejected e0 ->
     exists j e,
       j < fanOut /\ outcome (respond env j) = Rejected e /\
       (forall j' e', j' < fanOut -> outcome (respond env j') = Rejected e' ->
                      settlesAt (respond env j) <= settlesAt (respond env j')) /\
       resumedAt run = settlesAt (respond env j) /\
       imageUrls (final run) = [] /\
       error (final run) = Some (anErrorOccurred e)).
Proof.
  intros Hb Hk run. split.
  - intros Hall.
    destruct (@fulfilled_run env prompt st Hb Hk Hall) as (Hlen & Hurls & Herr & Hat).
    fold run in Hurls, Herr, Hat. split; [|split; [|split]].
    + intros i Hi. rewrite Hat. apply settles_before_max.
      apply in_imagePromises. eauto.
    + exact Hurls.
    + rewrite Hurls. apply collectUrls_length.
    + intros e He. rewrite Herr in He.
      destruct (_ =? 0); [|destruct (_ <? 5)]; simpl in He; discriminate.
  - intros i e0 Hi Hrej.
    assert (Hin : In (respond env i) (imagePromises env))
      by (apply in_imagePromises; eauto).
    destruct (firstRejection (imagePromises env)) as [[t e]|] eqn:Hfirst;
      [|now destruct (firstRejection_some _ _ Hin Hrej)].
    destruct (firstRejection_earliest _ Hfirst) as [(p & Hp & Ht & He) Hmin].
    apply in_imagePromises in Hp as (j & Hj & ->).
    exists j, e. split; [exact Hj|]. split; [exact He|]. split.
    + intros j' e' Hj' He'. rewrite Ht. apply (Hmin (respond env j') e'); [|exact He'].
      apply in_imagePromises. eauto.
    + unfold run. rewrite handleGenerateImage_validated by assumption.
      unfold promiseAll. rewrite Hfirst.
      cbn [final outcome imageUrls error resumedAt settlesAt]. auto.
Qed.

Lemma image_fanout_settlement_witness :
  waitedForAll allAnswer (handleGenerateImage allAnswer (js "a wolf in a suit") idle) /\
  resumedAt (handleGenerateImage oneRejects (js "a wolf in a suit") idle) = 1.
Proof.
  split.
  - destruct (@image_fanout_settlement allAnswer (js "a wolf in a suit") idle)
      as [H _]; [vm_compute; reflexivity | vm_compute; reflexivity |].
    apply H. intros i Hi. eexists. reflexivity.
  - destruct (@image_fanout_settlement oneRejects (js "a wolf in a suit") idle)
      as [_ H]; [vm_compute; reflexivity | vm_compute; reflexivity |].
    destruct (H 0 (ErrorObj (js "429 quota exceeded")))
      as (j & e & _ & _ & _ & Hat & _); [unfold fanOut; lia | reflexivity |].
    vm_compute. reflexivity.
Defined.

End ImageClaims.

(** ** The video poller and the credential flag *)

Module VideoClaims.
Import JS Gemini Video.

Lemma pollCycles_cycle operation es :
  pollCycles ([Sleep pollInterval; Net (GetVideosOperation operation)] ++ es) =
  option_map S (pollCycles es).
Proof. reflexivity. Qed.

Lemma pollLoop_done fuel polls k operation :
  done operation = true ->
  pollLoop fuel polls k operation = Some ([], Fulfilled operation).
Proof. intros H. destruct fuel; cbn [pollLoop]; now rewrite H. Qed.

(** A job that is still running after [k] polls and first reports
    [done] at poll [k + D] keeps the loop going for exactly [D] cycles. *)
Lemma pollLoop_cycles polls D : forall k operation fuel,
  done operation = false ->
  (forall j, j < D ->
     exists o, polls (k + j) = Fulfilled o /\ done o = false) ->
  (exists o, polls (k + D) = Fulfilled o /\ done o = true) ->
  (S D <= fuel ->
     exists es o, pollLoop fuel polls k operation = Some (es, Fulfilled o) /\
                  done o = true /\ pollCycles es = Some (S D)) /\
  (fuel <= D -> pollLoop fuel polls k operation = None).
Proof.
  induction D as [|D IH]; intros k operation fuel Hop Hrun Hend.
  - destruct Hend as (o & Ho & Hdone). rewrite Nat.add_0_r in Ho. split.
    + intros Hfuel. destruct fuel as [|fuel]; [lia|].
      cbn [pollLoop]. rewrite Hop, Ho, (@pollLoop_done fuel polls (S k) o Hdone).
      exists ([Sleep pollInterval; Net (GetVideosOperation operation)] ++ []), o.
      auto.
    + intros Hfuel. assert (fuel = 0) as -> by lia.
      cbn [pollLoop]. now rewrite Hop.
  - destruct (Hrun 0) as (o & Ho & Hnot); [lia|]. rewrite Nat.add_0_r in Ho.
    assert (Hrun' : forall j, j < D ->
              exists o', polls (S k + j) = Fulfilled o' /\ done o' = false).
    { intros j Hj. destruct (Hrun (S j)) as (o' & Ho' & Hd'); [lia|].
      exists o'. split; [|exact Hd']. rewrite <- Ho'. f_equal. lia. }
    assert (Hend' : exists o', polls (S k + D) = Fulfilled o' /\ done o' = true).
    { destruct Hend as (o' & Ho' & Hd'). exists o'. split; [|exact Hd'].
      rewrite <- Ho'. f_equal. lia. }
    split.
    + intros Hfuel. destruct fuel as [|fuel]; [lia|].
      destruct (IH (S k) o fuel Hnot Hrun' Hend') as [Hsome _].
      destruct Hsome as (es & o' & Hloop & Hd' & Hcycles); [lia|].
      cbn [pollLoop]. rewrite Hop, Ho, Hloop.
      exists ([Sleep pollInterval; Net (GetVideosOperation operation)] ++ es), o'.
      split; [reflexivity|]. split; [exact Hd'|].
      rewrite pollCycles_cycle, Hcycles. reflexivity.
    + intros Hfuel. destruct fuel as [|fuel]; cbn [pollLoop]; rewrite Hop;
        [reflexivity|].
      destruct (IH (S k) o fuel Hnot Hrun' Hend') as [_ Hnone].
      rewrite Ho, Hnone by lia. reflexivity.
Qed.

Lemma filter_isPoll_app a b :
  filter isPoll (a ++ b) = filter isPoll a ++ filter isPoll b.
Proof. apply filter_app. Qed.

(** C6: for a job that first reports [done] on its [D]-th poll, the
    handler returns once it may run [D] cycles and not before; its
    effects are the submission, then exactly [D] poll calls, each right
    after a wait of 10000 ms, then at most the download; and it leaves
    the loading flag off. *)
Theorem poller_issues_D_polls env D st file :
  blank (prompt st) = false -> imageFile st = Some file ->
  truthy (API_KEY env) = true ->
  (exists imageBase64, readFile env file = Fulfilled imageBase64) ->
  doneOnPoll env D ->
  (forall fuel, D <= fuel ->
     exists run submitted cycles rest,
       handleGenerateVideo fuel env st = Some run /\
       effects run = submitted :: cycles ++ rest /\
       isPoll submitted = false /\ isSleep submitted = false /\
       pollCycles cycles = Some D /\
       filter isPoll rest = [] /\ filter isSleep rest = [] /\
       isLoading (final run) = false) /\
  (forall fuel, fuel < D -> handleGenerateVideo fuel env st = None).
Proof.
  intros Hb Hf Hk (imageBase64 & Hread) (HD & (op0 & Hsub & Hop0) & Hrun & Hend).
  destruct D as [|D]; [lia|].
  assert (Hrun' : forall j, j < D ->
            exists o, poll env (0 + j) = Fulfilled o /\ done o = false)
    by (intros j Hj; apply Hrun; lia).
  assert (Hend' : exists o, poll env (0 + D) = Fulfilled o /\ done o = true).
  { destruct Hend as (o & Ho & Hd). exists o. split; [|exact Hd].
    rewrite <- Ho. f_equal. lia. }
  split; intros fuel Hfuel;
    destruct (@pollLoop_cycles (poll env) D 0 op0 fuel Hop0 Hrun' Hend')
      as [Hsome Hnone].
  - destruct Hsome as (es & o & Hloop & Hd & Hcycles); [lia|].
    unfold handleGenerateVideo, tryGenerate.
    rewrite Hb, Hf, Hk, Hread, Hsub, Hloop. cbn [negb].
    destruct (truthy (videoUri o)).
    + destruct (download env _) as [response|e].
      * destruct (ok response); cbn [negb];
          [destruct (blobUrl response)|];
          eexists _, _, es, [_]; repeat split; eauto.
      * eexists _, _, es, [_]; repeat split; eauto.
    + eexists _, _, es, []. rewrite app_nil_r. repeat split; eauto.
  - unfold handleGenerateVideo, tryGenerate.
    rewrite Hb, Hf, Hk, Hread, Hsub, Hnone by lia. reflexivity.
Qed.

Lemma poller_issues_D_polls_witness :
  exists run,
    handleGenerateVideo 2 doneOnSecondPoll ready = Some run /\
    length (filter isPoll (effects run)) = 2 /\
    handleGenerateVideo 1 doneOnSecondPoll ready = None.
Proof.
  destruct (@poller_issues_D_polls doneOnSecondPoll 2 ready frame)
    as [Hsome Hnone];
    [vm_compute; reflexivity | reflexivity | vm_compute; reflexivity
    | eexists; reflexivity | |].
  - split; [lia|]. split; [eexists; split; reflexivity|]. split.
    + intros k Hk. assert (k = 0) as -> by lia. eexists. split; reflexivity.
    + eexists. split; reflexivity.
  - destruct (Hsome 2) as (run & _ & _ & _ & Hrun & _); [lia|].
    exists run. split; [exact Hrun|]. split.
    + vm_compute in Hrun. injection Hrun as <-. reflexivity.
    + apply Hnone. lia.
Defined.

Lemma keyInvalid_distinct m : keyInvalid <> js "An error occurred: " ++ m.
Proof. intros H. cbv in H. discriminate. Qed.

(** C7: a failure of submission, polling or download whose text holds
    [Requested entity was not found] ends with the key-invalid message,
    which no generic message equals, and with the credential flag off,
    so that the key-selection screen replaces the form; every other
    outcome leaves the flag as it was. *)
Theorem credential_failure_revokes_flag fuel env st run :
  handleGenerateVideo fuel env st = Some run ->
  match thrownBy fuel env st with
  | Some e =>
      if includes (errorMessage e) entityNotFound
      then error (final run) = Some keyInvalid /\
           apiKeySelected (final run) = false /\
           view (final run) = KeyRequired
      else error (final run) = Some (js "An error occurred: " ++ errorMessage e) /\
           apiKeySelected (final run) = apiKeySelected st
  | None => apiKeySelected (final run) = apiKeySelected st
  end /\
  (forall m, keyInvalid <> js "An error occurred: " ++ m).
Proof.
  intros Hrun. split; [|exact keyInvalid_distinct].
  unfold handleGenerateVideo, thrownBy in *.
  destruct (blank (prompt st)); [injection Hrun as <-; reflexivity|].
  destruct (imageFile st) as [file|]; [|injection Hrun as <-; reflexivity].
  destruct (truthy (API_KEY env)); cbn [negb] in *;
    [|injection Hrun as <-; reflexivity].
  destruct (tryGenerate fuel env (prompt st) file) as [[es [url|e]]|];
    [| |discriminate]; injection Hrun as <-; [reflexivity|].
  cbn [final]. unfold onCatch.
  destruct (includes (errorMessage e) entityNotFound); auto.
Qed.

Lemma credential_failure_revokes_flag_witness :
  exists run,
    handleGenerateVideo 0 keyRevoked ready = Some run /\
    error (final run) = Some keyInvalid /\
    apiKeySelected (final run) = false /\
    view (final run) = KeyRequired.
Proof.
  eexists. split; [reflexivity|].
  exact (proj1 (@credential_failure_revokes_flag 0 keyRevoked ready _ eq_refl)).
Defined.

(** C10: as soon as the key-selection dialog resolves, picked key or
    not, the flag is on and the generator form is shown; and the flag
    goes from on to off only in [handleGenerateVideo], on a failure
    whose text holds [Requested entity was not found]. *)
Theorem select_key_assumes_success env studio picked st :
  aistudio env = Some studio -> openSelectKey studio = Fulfilled picked ->
  apiKeySelected (handleSelectKey env st) = true /\
  view (handleSelectKey env st) = GeneratorForm /\
  (forall fuel env' a st1 st2,
     step fuel env' a st1 = Some st2 ->
     apiKeySelected st1 = true -> apiKeySelected st2 = false ->
     a = GenerateVideo /\
     exists e, thrownBy fuel env' st1 = Some e /\
               includes (errorMessage e) entityNotFound = true).
Proof.
  intros Hstudio Hopen. unfold view, handleSelectKey. rewrite Hstudio, Hopen.
  split; [reflexivity|]. split; [reflexivity|].
  intros fuel env' a st1 st2 Hstep Hon Hoff. destruct a; cbn [step] in Hstep.
  - injection Hstep as <-. unfold checkApiKey in Hoff.
    destruct (aistudio env') as [s|]; [destruct (hasSelectedApiKey s) as [[|]|]|];
      cbn in Hoff; congruence.
  - injection Hstep as <-. unfold handleSelectKey in Hoff.
    destruct (aistudio env') as [s|]; [destruct (openSelectKey s)|];
      cbn in Hoff; congruence.
  - injection Hstep as <-. unfold handleFileChange in Hoff.
    destruct file as [f|]; [destruct (_ <? _)%N|]; cbn in Hoff; congruence.
  - injection Hstep as <-. cbn in Hoff. congruence.
  - split; [reflexivity|].
    destruct (handleGenerateVideo fuel env' st1) as [run|] eqn:Hrun;
      [|discriminate]. injection Hstep as <-.
    unfold handleGenerateVideo, thrownBy in *.
    destruct (blank (prompt st1));
      [injection Hrun as <-; cbn in Hoff; congruence|].
    destruct (imageFile st1) as [file|];
      [|injection Hrun as <-; cbn in Hoff; congruence].
    destruct (truthy (API_KEY env')); cbn [negb] in *;
      [|injection Hrun as <-; cbn in Hoff; congruence].
    destruct (tryGenerate fuel env' (prompt st1) file) as [[es [url|e]]|];
      [| |discriminate]; injection Hrun as <-;
      [cbn in Hoff; congruence|].
    exists e. split; [reflexivity|]. cbn [final] in Hoff. unfold onCatch in Hoff.
    destruct (includes (errorMessage e) entityNotFound); [reflexivity|].
    cbn in Hoff. congruence.
Qed.

Lemma select_key_assumes_success_witness :
  openSelectKey dismissive = Fulfilled false /\
  view (setApiKeySelected false ready) = KeyRequired /\
  view (handleSelectKey doneOnSecondPoll (setApiKeySelected false ready)) = GeneratorForm.
Proof.
  split; [reflexivity|]. split; [reflexivity|].
  exact (proj1 (proj2 (@select_key_assumes_success doneOnSecondPoll dismissive false
                         (setApiKeySelected false ready) eq_refl eq_refl))).
Defined.

End VideoClaims.

(** ** The speech orchestration *)

Module SpeechClaims.
Import JS Gemini Speech.

(** The [try] block either stores nothing, and then ends in an
    exception or in the missing-audio message, or it stores both
    buffers, which takes two successful syntheses. *)
Lemma tryGenerate_cases env st :
  let a := tryGenerate env st in
  (generatedAudio (reached a) = generatedAudio st /\
   ((exists e, escaped a = Some e) \/
    (escaped a = None /\ error (reached a) = Some audioMissing)) /\
   (synthesisFailed (speakOriginal env) \/ synthesisFailed (speakBelfort env) ->
    audio (reached a) = audio st)) \/
  (exists b1 b2,
     generatedAudio (reached a) = {| original := Some b1; belfort := Some b2 |} /\
     escaped a = None /\
     ~ synthesisFailed (speakOriginal env) /\ ~ synthesisFailed (speakBelfort env)).
Proof.
  intros a. unfold a, tryGenerate, promiseAll, synthesisFailed.
  cbn [firstRejection fulfilledValues].
  destruct (rewrite env) as [r|e0]; [destruct (text r) as [t|]|].
  2,3: left; cbn; eauto 6.
  destruct (0 <? length (Cue.extractPrompts (trim t))).
  all: destruct (outcome (speakOriginal env)) as [r1|e1];
    destruct (outcome (speakBelfort env)) as [r2|e2];
    try destruct (settlesAt (speakOriginal env) <=? settlesAt (speakBelfort env)).
  all: try (left; cbn; eauto 6; fail).
  all: cbn [outcome nth].
  all: destruct (truthy (audioData r1)) eqn:H1; destruct (truthy (audioData r2)) eqn:H2;
    cbn [andb].
  all: try (left; cbn; eauto 6; fail).
  all: destruct (decodeAudio env (interpolate (audioData r1))) as [b1|d1];
    [destruct (decodeAudio env (interpolate (audioData r2))) as [b2|d2]|].
  all: try (right; cbn; exists b1, b2; repeat split; congruence).
  all: left; cbn; repeat split; eauto; intros [H|H]; congruence.
Qed.

(** C9: if either synthesis request fails, by rejecting or by settling
    without an inline audio payload, the handler stores no audio at all,
    reports one error message, starts no playback and leaves the loading
    flag off; and whatever happens, the two stored buffers are both
    present or both absent. *)
Theorem speech_audio_all_or_nothing env st :
  blank (textInput st) = false -> truthy (API_KEY env) = true ->
  let run := handleGenerateSpeech env st in
  (original (generatedAudio (final run)) = None <->
   belfort (generatedAudio (final run)) = None) /\
  (synthesisFailed (speakOriginal env) \/ synthesisFailed (speakBelfort env) ->
   generatedAudio (final run) = {| original := None; belfort := None |} /\
   (error (final run) = Some audioMissing \/
    exists e, error (final run) = Some (anErrorOccurred e)) /\
   isLoading (final run) = false /\
   audio (final run) = audio st).
Proof.
  intros Hb Hk run. unfold run, handleGenerateSpeech. rewrite Hb, Hk.
  cbn [negb final].
  set (st0 := setHasImagePrompts false _).
  assert (Hst0 : generatedAudio st0 = {| original := None; belfort := None |})
    by reflexivity.
  assert (Haudio0 : audio st0 = audio st) by reflexivity.
  destruct (tryGenerate_cases env st0)
    as [(Hga & Hesc & Haud)|(b1 & b2 & Hga & Hesc & Hn1 & Hn2)].
  - assert (Hstored :
      generatedAudio
        (setIsLoading false
           match escaped (tryGenerate env st0) with
           | Some e => setError (Some (anErrorOccurred e)) (reached (tryGenerate env st0))
           | None => reached (tryGenerate env st0)
           end) = {| original := None; belfort := None |}).
    { destruct (escaped (tryGenerate env st0));
        cbn [generatedAudio setIsLoading setError]; congruence. }
    rewrite Hstored. split; [split; reflexivity|].
    intros Hfailed. split; [reflexivity|]. specialize (Haud Hfailed).
    destruct Hesc as [[e He]|[He Herr]]; rewrite He;
      cbn [error isLoading audio setIsLoading setError];
      (split; [eauto|]); split; congruence.
  - rewrite Hesc. cbn [generatedAudio setIsLoading]. rewrite Hga.
    split; [split; discriminate|]. intros [H|H]; contradiction.
Qed.

Lemma speech_audio_all_or_nothing_witness :
  generatedAudio (final (handleGenerateSpeech belfortRefused draft)) =
    {| original := None; belfort := None |} /\
  error (final (handleGenerateSpeech belfortRefused draft)) =
    Some (js "An error occurred: 503 overloaded").
Proof.
  destruct (@speech_audio_all_or_nothing belfortRefused draft)
    as [_ H]; [vm_compute; reflexivity | vm_compute; reflexivity |].
  destruct H as (Hnone & _ & _ & _); [right; exact I|].
  split; [exact Hnone | vm_compute; reflexivity].
Defined.

End SpeechClaims.

(** ** Validation and credential checks of the three entry points *)

Module EntryClaims.
Import JS Gemini.

(** C8 as stated fails: with no credential and an empty prompt the
    image handler reports the missing prompt, not the missing
    credential (it still makes no call). *)
Lemma blank_input_precedes_credential_check :
  let run := Image.handleGenerateImage Image.noKey [] Image.idle in
  Image.error (Image.final run) = Some Image.promptMissing /\
  Image.error (Image.final run) <> Some apiKeyMissing /\
  Image.effects run = [].
Proof. cbv. repeat split. discriminate. Qed.

(** C8, amended: each entry point called with usable input (non-blank
    text; for video also an image) and no credential reports the
    missing credential and performs no effect at all, hence no network
    call; called with blank input it reports the missing input,
    whatever the credential, and performs no effect either. *)
Theorem missing_credential_no_calls :
  (forall env st,
     let run := Speech.handleGenerateSpeech env st in
     (blank (Speech.textInput st) = true ->
        Speech.error (Speech.final run) = Some Speech.textMissing /\
        Speech.effects run = [] /\ netCalls (Speech.effects run) = []) /\
     (blank (Speech.textInput st) = false -> truthy (Speech.API_KEY env) = false ->
        Speech.error (Speech.final run) = Some apiKeyMissing /\
        Speech.effects run = [] /\ netCalls (Speech.effects run) = [])) /\
  (forall env prompt st,
     let run := Image.handleGenerateImage env prompt st in
     (blank prompt = true ->
        Image.error (Image.final run) = Some Image.promptMissing /\
        Image.effects run = [] /\ netCalls (Image.effects run) = []) /\
     (blank prompt = false -> truthy (Image.API_KEY env) = false ->
        Image.error (Image.final run) = Some apiKeyMissing /\
        Image.effects run = [] /\ netCalls (Image.effects run) = [])) /\
  (forall fuel env st,
     (blank (Video.prompt st) = true \/ Video.imageFile st = None ->
        exists run,
          Video.handleGenerateVideo fuel env st = Some run /\
          Video.error (Video.final run) = Some Video.inputMissing /\
          Video.effects run = [] /\ netCalls (Video.effects run) = []) /\
     (blank (Video.prompt st) = false -> Video.imageFile st <> None ->
      truthy (Video.API_KEY env) = false ->
        exists run,
          Video.handleGenerateVideo fuel env st = Some run /\
          Video.error (Video.final run) = Some apiKeyMissing /\
          Video.effects run = [] /\ netCalls (Video.effects run) = [])).
Proof.
  split; [|split].
  - intros env st run. unfold run, Speech.handleGenerateSpeech. split.
    + intros ->. repeat split.
    + intros -> ->. repeat split.
  - intros env prompt st run. unfold run, Image.handleGenerateImage. split.
    + intros ->. repeat split.
    + intros -> ->. repeat split.
  - intros fuel env st. unfold Video.handleGenerateVideo. split.
    + intros [->| ->]; [|destruct (blank (Video.prompt st))];
        eexists; repeat split.
    + intros -> Hfile ->. destruct (Video.imageFile st); [|contradiction].
      eexists. repeat split.
Qed.

Lemma missing_credential_no_calls_witness :
  netCalls (Speech.effects (Speech.handleGenerateSpeech Speech.noKey Speech.draft)) = [] /\
  Image.error (Image.final (Image.handleGenerateImage Image.noKey (js "a wolf") Image.idle)) =
    Some apiKeyMissing /\
  exists run,
    Video.handleGenerateVideo 0 Video.noKey Video.ready = Some run /\
    Video.error (Video.final run) = Some apiKeyMissing /\
    Video.effects run = [].
Proof.
  destruct missing_credential_no_calls as (Hs & Hi & Hv).
  split; [|split].
  - destruct (Hs Speech.noKey Speech.draft) as [_ H].
    apply H; vm_compute; reflexivity.
  - destruct (Hi Image.noKey (js "a wolf") Image.idle) as [_ H].
    apply H; vm_compute; reflexivity.
  - destruct (Hv 0 Video.noKey Video.ready) as [_ H].
    destruct H as (run & Hrun & Herr & Heff & _);
      [vm_compute; reflexivity | discriminate | vm_compute; reflexivity |].
    exists run. auto.
Defined.

End EntryClaims.

(** ** Playback *)

Module PlaybackClaims.
Import Playback.

(** C3 at its failing input: [play(A)] and then [play(B)] before the
    teardown started by the first call has completed.  On a host that
    resolves the second [close()], both callbacks run: two contexts are
    live at the end, the one playing [A] no longer referenced.  On a
    host that rejects it, the callback of the second call never runs:
    one context is live, playing [A], and [B] is never heard.  Calls
    that do not overlap end with one live context playing [B]. *)
Theorem overlapping_play_breaks_exclusivity :
  let overlap := [Play (Some bufferA); Play (Some bufferB)] in
  active (runEvents ResolveRepeatedClose
            (overlap ++ [TeardownCompletes; TeardownCompletes]) emptyWorld) =
    [Some bufferA; Some bufferB] /\
  current (runEvents ResolveRepeatedClose
             (overlap ++ [TeardownCompletes; TeardownCompletes]) emptyWorld) =
    Some 2 /\
  active (runEvents RejectRepeatedClose
            (overlap ++ [TeardownCompletes]) emptyWorld) = [Some bufferA] /\
  pendingClose (runEvents RejectRepeatedClose
                  (overlap ++ [TeardownCompletes]) emptyWorld) = [] /\
  (forall policy,
     active (runEvents policy
               [Play (Some bufferA); TeardownCompletes; Play (Some bufferB); TeardownCompletes]
               emptyWorld) = [Some bufferB]).
Proof.
  repeat split.
Qed.

End PlaybackClaims.

(** ** The narration text and texts without cues *)

Module NarrationFacts.
Import JS Cue Script MatcherFacts CueFacts BlockFacts ScriptFacts.

Lemma speech_block ds q rest :
  isNumber ds = true -> isPromptLine q = true ->
  match_at speechRegex (marker ds ++ LF :: q ++ LF :: rest) = Some (rest, []).
Proof.
  intros Hn Hq. unfold isPromptLine in Hq. apply andb_prop in Hq as [Hdot Hns].
  unfold match_at, speechRegex.
  change (rmatch (RSeq markerRe ?r) ?s ?c ?k) with
    (rmatch markerRe s c (fun s' c' => rmatch r s' c' k)).
  rewrite marker_match by assumption.
  rewrite marker_line_end by assumption.
  cbn [rmatch]. change (accepts CDot) with is_dot.
  rewrite star_lazy_app_fail; [|assumption|].
  - cbn [star_lazy]. change (accepts (CLit LF) LF) with true. reflexivity.
  - intros a b -> Hb. destruct b as [|c b]; [contradiction|].
    rewrite forallb_app in Hdot. apply andb_prop in Hdot as [_ Hdot].
    simpl in Hdot. apply andb_prop in Hdot as [Hc _].
    apply dot_not_lf, N.eqb_neq in Hc. cbn [app accepts]. now rewrite Hc.
Qed.

Lemma speech_no_match a b t :
  markerFree (a ++ b) = true -> b <> [] -> opensWithBracket t ->
  match_at speechRegex (b ++ t) = None.
Proof.
  intros Hfree Hb Ht. unfold match_at, speechRegex.
  change (rmatch (RSeq markerRe ?r) ?s ?cs ?k) with
    (rmatch markerRe s cs (fun s' c' => rmatch r s' c' k)).
  now apply prose_no_match with (a := a).
Qed.

Lemma search_speech_block p0 b T :
  markerFree p0 = true -> wellFormed b = true ->
  exists m,
    search speechRegex (p0 ++ blockText b ++ T) =
      Some (Found p0 (bracket :: m) [] (prose b ++ T)).
Proof.
  intros Hp0 Hb. destruct (wellFormed_inv _ Hb) as (Hn & Hq & Hpr).
  rewrite blockText_app. rewrite search_skip.
  - rewrite (search_here _ _ (@speech_block (number b) (prompt b) (prose b ++ T) Hn Hq)).
    cbn [before matched groups after]. rewrite app_nil_r.
    replace (marker (number b) ++ LF :: prompt b ++ LF :: prose b ++ T)
      with ((marker (number b) ++ LF :: prompt b ++ [LF]) ++ prose b ++ T).
    + rewrite firstn_prefix. unfold marker at 1. cbn [app]. eauto.
    + rewrite <- !app_assoc. cbn [app]. now rewrite <- !app_assoc.
  - intros a c -> Hc. apply speech_no_match with (a := a); try assumption.
    right. unfold marker, bracket. eexists. reflexivity.
Qed.

Lemma search_speech_prose p0 :
  markerFree p0 = true -> search speechRegex p0 = None.
Proof.
  intros Hp0. apply search_none_all. intros a b ->.
  destruct b as [|c b]; [reflexivity|].
  rewrite <- (app_nil_r (c :: b)).
  apply speech_no_match with (a := a); [assumption | discriminate | now left].
Qed.

Lemma stripBoth_fuel bs : forall p0 fuel,
  markerFree p0 = true -> forallb wellFormed bs = true ->
  length (script p0 bs) < fuel ->
  replace_fuel fuel speechRegex (fun _ => []) (script p0 bs) =
  p0 ++ flat_map prose bs.
Proof.
  induction bs as [|b bs IH]; intros p0 fuel Hp0 Hbs Hfuel;
    (destruct fuel as [|fuel]; [lia|]);
    unfold script in *; cbn [flat_map] in *.
  - cbn [replace_fuel]. rewrite app_nil_r.
    now rewrite search_speech_prose.
  - cbn [forallb] in Hbs. apply andb_prop in Hbs as [Hb Hbs].
    destruct (wellFormed_inv _ Hb) as (_ & _ & Hpr).
    destruct (@search_speech_block p0 b (flat_map blockText bs) Hp0 Hb) as (m & Hs).
    cbn [replace_fuel]. rewrite Hs.
    cbn [matched after groups before app].
    rewrite IH; try assumption.
    + reflexivity.
    + pose proof (length_blockText_pos b (flat_map blockText bs)) as Hlt.
      rewrite !length_app in *. lia.
Qed.

(** The narration handed to the speech synthesis: on a script of
    well-formed blocks every marker line and every prompt line is
    gone, and the introduction and the prose of the blocks remain, in
    order. *)
Theorem stripBoth_script intro bs :
  markerFree intro = true -> forallb wellFormed bs = true ->
  stripBoth (script intro bs) = intro ++ flat_map prose bs.
Proof.
  intros Hintro Hbs. unfold stripBoth, replace.
  apply stripBoth_fuel; auto.
Qed.

Lemma stripBoth_script_witness :
  stripBoth (script pitch [lionBlock; yachtBlock]) =
  pitch ++ prose lionBlock ++ prose yachtBlock.
Proof.
  rewrite (@stripBoth_script pitch [lionBlock; yachtBlock]);
    [reflexivity | vm_compute; reflexivity | vm_compute; reflexivity].
Defined.

Lemma display_two_newlines s x :
  match_at displayRegex s = Some x -> 2 <= newlines s.
Proof.
  unfold match_at, displayRegex.
  change (rmatch (RSeq (RGroup markerRe) ?r) ?s ?cs ?k) with
    (rmatch markerRe s cs
       (fun s' c' => rmatch r s' (c' ++ [firstn (length s - length s') s]) k)).
  intros H. apply marker_inv in H as (ds & rest & _ & -> & H).
  cbn [rmatch] in H.
  apply star_greedy_inv in H as (a1 & b1 & -> & _ & H).
  destruct b1 as [|c1 b1]; [discriminate|]. cbn [accepts] in H.
  destruct (N.eqb_spec c1 LF) as [->|]; [|discriminate].
  apply star_lazy_inv in H as (a2 & b2 & -> & _ & H).
  destruct b2 as [|c3 b3]; [discriminate|]. cbn [accepts] in H.
  destruct (N.eqb_spec c3 LF) as [->|]; [|discriminate].
  unfold newlines.
  repeat (rewrite ?filter_app, ?length_app; cbn [filter]).
  change (N.eqb LF LF) with true. cbn [length].
  repeat (rewrite ?filter_app, ?length_app; cbn [filter length]). lia.
Qed.

Lemma speech_two_newlines s x :
  match_at speechRegex s = Some x -> 2 <= newlines s.
Proof.
  unfold match_at, speechRegex.
  change (rmatch (RSeq markerRe ?r) ?s ?cs ?k) with
    (rmatch markerRe s cs (fun s' c' => rmatch r s' c' k)).
  intros H. apply marker_inv in H as (ds & rest & _ & -> & H).
  cbn [rmatch] in H.
  apply star_greedy_inv in H as (a1 & b1 & -> & _ & H).
  destruct b1 as [|c1 b1]; [discriminate|]. cbn [accepts] in H.
  destruct (N.eqb_spec c1 LF) as [->|]; [|discriminate].
  apply star_lazy_inv in H as (a2 & b2 & -> & _ & H).
  destruct b2 as [|c3 b3]; [discriminate|]. cbn [accepts] in H.
  destruct (N.eqb_spec c3 LF) as [->|]; [|discriminate].
  unfold newlines.
  repeat (rewrite ?filter_app, ?length_app; cbn [filter]).
  change (N.eqb LF LF) with true. cbn [length].
  repeat (rewrite ?filter_app, ?length_app; cbn [filter length]). lia.
Qed.

Lemma search_short_text s :
  newlines s < 2 ->
  search promptRegex s = None /\ search displayRegex s = None /\
  search speechRegex s = None.
Proof.
  intros H. split; [now apply search_few_newlines|].
  split; apply search_none_all; intros a b ->; rewrite newlines_app in H.
  - destruct (match_at displayRegex b) as [x|] eqn:Hm; [|reflexivity].
    apply display_two_newlines in Hm. lia.
  - destruct (match_at speechRegex b) as [x|] eqn:Hm; [|reflexivity].
    apply speech_two_newlines in Hm. lia.
Qed.

(** A text without any marker, or with fewer than two line feeds (a
    marker line needs its own and the one that ends the prompt line),
    holds no cue for any of the three regexes: no prompt is extracted
    from it, and both the display text and the narration are the text
    itself. *)
Theorem text_without_cue_untouched s :
  markerFree s = true \/ newlines s < 2 ->
  extractPrompts s = [] /\ stripPromptLines s = s /\ stripBoth s = s.
Proof.
  intros H.
  assert (Hs : search promptRegex s = None /\ search displayRegex s = None /\
               search speechRegex s = None).
  { destruct H as [H|H]; [|now apply search_short_text].
    split; [now apply search_prompt_prose|].
    split; [now apply search_display_prose | now apply search_speech_prose]. }
  destruct Hs as (H1 & H2 & H3).
  unfold extractPrompts, stripPromptLines, stripBoth, matchAll, replace.
  cbn [matchAll_fuel replace_fuel]. rewrite H1, H2, H3. auto.
Qed.

Lemma text_without_cue_untouched_witness :
  stripBoth pitch = pitch /\
  extractPrompts (marker (js "1") ++ LF :: js "A yacht.") = [].
Proof.
  split.
  - apply (@text_without_cue_untouched pitch). left. vm_compute. reflexivity.
  - apply (@text_without_cue_untouched (marker (js "1") ++ LF :: js "A yacht.")).
    right. vm_compute. lia.
Defined.

End NarrationFacts.

(** ** The display of the rewritten script *)

Module DisplayFacts.
Import JS Cue Script Gemini Display MatcherFacts CueFacts BlockFacts ScriptFacts.

Lemma group_marker s rest caps :
  match_at (RGroup markerRe) s = Some (rest, caps) ->
  exists ds, isNumber ds = true /\ s = marker ds ++ rest /\ caps = [marker ds].
Proof.
  unfold match_at. cbn [rmatch]. intros H.
  apply marker_inv in H as (ds & r & Hn & -> & H).
  rewrite firstn_prefix in H. cbn [app] in H.
  exists ds. split; [exact Hn|]. now inversion H.
Qed.

Lemma group_marker_match ds rest :
  isNumber ds = true ->
  match_at (RGroup markerRe) (marker ds ++ rest) = Some (rest, [marker ds]).
Proof.
  intros Hn. unfold match_at. cbn [rmatch]. rewrite marker_match by assumption.
  cbn [app]. now rewrite firstn_prefix.
Qed.

Lemma marker_found ds rest :
  isNumber ds = true -> match_at markerRe (marker ds ++ rest) = Some (rest, []).
Proof. intros Hn. unfold match_at. now rewrite marker_match. Qed.

Lemma group_none s :
  match_at (RGroup markerRe) s = None -> match_at markerRe s = None.
Proof.
  intros H. destruct (match_at markerRe s) as [x|] eqn:Hm; [|reflexivity].
  unfold match_at in Hm. apply marker_inv in Hm as (ds & rest & Hn & -> & _).
  now rewrite group_marker_match in H.
Qed.

Lemma marker_shortens ds rest : length rest < length (marker ds ++ rest).
Proof. unfold marker. cbn [app length]. rewrite length_app. lia. Qed.

(** Whatever the text, splitting at the markers loses nothing. *)
Lemma splitLoop_concat fuel : forall pending s,
  concat (splitLoop fuel (RGroup markerRe) pending s) = pending ++ s.
Proof.
  induction fuel as [|fuel IH]; intros pending s; cbn [splitLoop].
  - cbn [concat]. now rewrite app_nil_r.
  - destruct s as [|c s'].
    + cbn [concat]. reflexivity.
    + destruct (match_at (RGroup markerRe) (c :: s')) as [[rest caps]|] eqn:Hm.
      * apply group_marker in Hm as (ds & Hn & Hs & ->).
        destruct pending as [|p pending'];
          [destruct (length rest =? length (c :: s'))|].
        -- rewrite IH. reflexivity.
        -- cbn [concat app]. rewrite IH, Hs. reflexivity.
        -- cbn [concat app]. rewrite IH, Hs. reflexivity.
      * rewrite IH. now rewrite <- app_assoc.
Qed.

Lemma split_concat s : concat (split (RGroup markerRe) s) = s.
Proof.
  destruct s as [|c s]; [reflexivity|].
  unfold split. now rewrite splitLoop_concat.
Qed.

(** Text in which no marker starts, even when read together with what
    follows it, holds no marker. *)
Lemma pending_markerFree pending s :
  (forall a b, pending = a ++ b -> b <> [] -> match_at markerRe (b ++ s) = None) ->
  markerFree pending = true.
Proof.
  intros Hclean. unfold markerFree, test.
  rewrite search_none_all; [reflexivity|].
  intros a b ->. destruct b as [|c b]; [reflexivity|].
  destruct (match_at markerRe (c :: b)) as [x|] eqn:Hm; [|reflexivity].
  unfold match_at in Hm. apply marker_inv in Hm as (ds & rest & Hn & Hb & _).
  specialize (Hclean a (c :: b) eq_refl ltac:(discriminate)).
  rewrite Hb, <- app_assoc, marker_found in Hclean by assumption.
  discriminate.
Qed.

Lemma splitLoop_parts fuel : forall pending s,
  length s < fuel ->
  (forall a b, pending = a ++ b -> b <> [] -> match_at markerRe (b ++ s) = None) ->
  Forall plainOrCue (splitLoop fuel (RGroup markerRe) pending s).
Proof.
  induction fuel as [|fuel IH]; intros pending s Hfuel Hclean; [lia|].
  cbn [splitLoop]. destruct s as [|c s'].
  - constructor; [|constructor]. left. now apply pending_markerFree with (s := []).
  - destruct (match_at (RGroup markerRe) (c :: s')) as [[rest caps]|] eqn:Hm.
    + apply group_marker in Hm as (ds & Hn & Hs & ->).
      pose proof (marker_shortens ds rest) as Hlt. rewrite <- Hs in Hlt.
      assert (Hne : (length rest =? length (c :: s')) = false)
        by (apply Nat.eqb_neq; lia).
      assert (Hout : Forall plainOrCue
                (pending :: [marker ds] ++ splitLoop fuel (RGroup markerRe) [] rest)).
      { constructor; [left; now apply pending_markerFree with (s := c :: s')|].
        constructor; [right; eauto|].
        apply IH; [cbn [length] in *; lia|].
        intros a b Hab Hb. destruct a; destruct b; try discriminate.
        contradiction. }
      rewrite Hne. destruct pending; exact Hout.
    + apply IH; [cbn [length] in Hfuel; lia|].
      intros a b Hab Hb.
      symmetry in Hab.
      destruct (@suffix_keeps_last a b pending c Hab Hb) as (b' & ->).
      rewrite app_assoc in Hab. apply app_inv_tail in Hab.
      rewrite <- app_assoc. cbn [app].
      destruct b' as [|x b'].
      * cbn [app]. now apply group_none.
      * apply (Hclean a (x :: b')); [now rewrite Hab | discriminate].
Qed.

Lemma split_parts s : Forall plainOrCue (split (RGroup markerRe) s).
Proof.
  destruct s as [|c s].
  - cbv. constructor; [|constructor]. left. reflexivity.
  - unfold split. apply splitLoop_parts; [lia|].
    intros a b Hab Hb. destruct a; destruct b; try discriminate. contradiction.
Qed.

Lemma marker_tested ds : isNumber ds = true -> test markerRe (marker ds) = true.
Proof.
  intros Hn. unfold test.
  pose proof (@marker_found ds [] Hn) as H. rewrite app_nil_r in H.
  now rewrite (search_here _ _ H).
Qed.

(** What [renderBelfortText] shows of any text: put together, its nodes
    spell the display text, nothing lost and nothing added; a
    highlighted span holds one marker and nothing else; and no marker
    is left in bare text. *)
Theorem render_highlights_cues t :
  truthy (Some t) = true ->
  exists nodes,
    renderBelfortText (Some t) = Some nodes /\
    flat_map nodeText nodes = stripPromptLines t /\
    Forall wellClassified nodes.
Proof.
  intros Ht. unfold renderBelfortText. rewrite Ht. cbn [interpolate].
  eexists. split; [reflexivity|]. split.
  - rewrite <- (split_concat (stripPromptLines t)) at 2.
    induction (split (RGroup markerRe) (stripPromptLines t)) as [|part parts IH];
      [reflexivity|].
    cbn [map flat_map concat]. rewrite IH. now destruct (test markerRe part).
  - pose proof (split_parts (stripPromptLines t)) as Hparts.
    induction Hparts as [|part parts Hpart _ IH]; [constructor|].
    cbn [map]. constructor; [|exact IH].
    destruct (test markerRe part) eqn:Htest; cbn [wellClassified].
    + destruct Hpart as [Hfree|Hcue]; [|exact Hcue].
      unfold markerFree in Hfree. rewrite Htest in Hfree. discriminate.
    + unfold markerFree. now rewrite Htest.
Qed.

Lemma render_highlights_cues_witness :
  exists nodes,
    renderBelfortText (Some (script pitch [lionBlock])) = Some nodes /\
    Forall wellClassified nodes.
Proof.
  destruct (@render_highlights_cues (script pitch [lionBlock]))
    as (nodes & H & _ & Hall); [reflexivity|].
  exists nodes. split; assumption.
Defined.

Lemma group_no_match a b t :
  markerFree (a ++ b) = true -> b <> [] -> opensWithBracket t ->
  match_at (RGroup markerRe) (b ++ t) = None.
Proof.
  intros Hfree Hb Ht. unfold match_at. cbn [rmatch].
  now apply prose_no_match with (a := a).
Qed.

Lemma splitLoop_skip re p : forall fuel pending t,
  (forall a b, p = a ++ b -> b <> [] -> match_at re (b ++ t) = None) ->
  splitLoop (length p + fuel) re pending (p ++ t) =
  splitLoop fuel re (pending ++ p) t.
Proof.
  induction p as [|c p IH]; intros fuel pending t Hclean.
  - cbn [length Nat.add app]. now rewrite app_nil_r.
  - cbn [length Nat.add app splitLoop].
    pose proof (Hclean [] (c :: p) eq_refl ltac:(discriminate)) as Hc.
    cbn [app] in Hc. rewrite Hc, IH.
    + now rewrite <- app_assoc.
    + intros a b -> Hb. now apply (Hclean (c :: a) b).
Qed.

Lemma splitLoop_at_marker fuel pending ds rest :
  isNumber ds = true ->
  splitLoop (S fuel) (RGroup markerRe) pending (marker ds ++ rest) =
  pending :: marker ds :: splitLoop fuel (RGroup markerRe) [] rest.
Proof.
  intros Hn. pose proof (@group_marker_match ds rest Hn) as Hm.
  pose proof (marker_shortens ds rest) as Hlt. revert Hm Hlt.
  unfold marker. cbn [app]. intros Hm Hlt. cbn [splitLoop]. rewrite Hm.
  replace (length rest =? _) with false by (symmetry; apply Nat.eqb_neq; lia).
  now destruct pending.
Qed.

Lemma markerFree_after_lf p : markerFree p = true -> markerFree (LF :: p) = true.
Proof.
  unfold markerFree, test. cbn [search].
  assert (H : match_at markerRe (LF :: p) = None) by reflexivity.
  rewrite H. now destruct (search markerRe p).
Qed.

Lemma splitLoop_script bs : forall p0 fuel,
  markerFree p0 = true -> forallb wellFormed bs = true ->
  length (strippedScript p0 bs) < fuel ->
  splitLoop fuel (RGroup markerRe) [] (strippedScript p0 bs) = scriptParts p0 bs.
Proof.
  induction bs as [|b bs IH]; intros p0 fuel Hp0 Hbs Hfuel;
    unfold strippedScript in *; cbn [flat_map scriptParts] in *.
  - rewrite app_nil_r in Hfuel.
    replace fuel with (length p0 + S (fuel - length p0 - 1)) by lia.
    rewrite splitLoop_skip; [reflexivity|].
    intros a c -> Hc. apply group_no_match with (a := a); auto. now left.
  - cbn [forallb] in Hbs. apply andb_prop in Hbs as [Hb Hbs].
    destruct (wellFormed_inv _ Hb) as (Hn & _ & Hpr).
    unfold strippedBlock in *. rewrite <- app_assoc in *. cbn [app] in *.
    rewrite !length_app in Hfuel. cbn [length] in Hfuel.
    replace fuel with (length p0 + S (fuel - length p0 - 1)) by lia.
    rewrite splitLoop_skip.
    + rewrite splitLoop_at_marker by assumption. cbn [app]. do 2 f_equal.
      apply (IH (LF :: prose b)); [now apply markerFree_after_lf | assumption|].
      cbn [app length]. rewrite length_app.
      pose proof (marker_shortens (number b) []) as Hm.
      rewrite app_nil_r in Hm. cbn [length] in Hm.
      rewrite length_app in Hfuel. lia.
    + intros a c -> Hc. apply group_no_match with (a := a); auto.
      right. unfold marker, bracket. eexists. reflexivity.
Qed.

Lemma classify_parts bs : forall p0,
  markerFree p0 = true -> forallb wellFormed bs = true ->
  map (fun part => if test markerRe part then Span part else Text part)
      (scriptParts p0 bs) =
  Text p0 :: flat_map blockNodes bs.
Proof.
  induction bs as [|b bs IH]; intros p0 Hp0 Hbs;
    cbn [scriptParts map flat_map];
    unfold markerFree in Hp0; apply negb_true_iff in Hp0; rewrite Hp0.
  - reflexivity.
  - cbn [forallb] in Hbs. apply andb_prop in Hbs as [Hb Hbs].
    destruct (wellFormed_inv _ Hb) as (Hn & _ & Hpr).
    rewrite marker_tested by assumption.
    rewrite IH; [reflexivity | now apply markerFree_after_lf | assumption].
Qed.

(** The display of a script of well-formed blocks: the introduction as
    bare text, then for each block its marker as a highlighted span and
    its prose, from the line feed that ended the marker line, as bare
    text; no prompt line is shown. *)
Theorem render_script intro bs :
  markerFree intro = true -> forallb wellFormed bs = true ->
  truthy (Some (script intro bs)) = true ->
  renderBelfortText (Some (script intro bs)) =
  Some (Text intro :: flat_map blockNodes bs).
Proof.
  intros Hintro Hbs Ht. unfold renderBelfortText. rewrite Ht.
  cbn [interpolate]. f_equal. unfold stripPromptLines, replace.
  rewrite replace_script by (auto; lia).
  rewrite <- classify_parts by assumption. f_equal.
  destruct (strippedScript intro bs) as [|c l] eqn:E.
  - unfold strippedScript in E. apply app_eq_nil in E as [-> E].
    destruct bs as [|b bs]; [discriminate Ht|]. discriminate E.
  - unfold split. rewrite <- E. apply splitLoop_script; auto. lia.
Qed.

Lemma render_script_witness :
  renderBelfortText (Some (script pitch [lionBlock; yachtBlock])) =
  Some [Text pitch;
        Span (js "[IMAGE 1]"); Text (LF :: prose lionBlock);
        Span (js "[IMAGE 2]"); Text (LF :: prose yachtBlock)].
Proof.
  apply (@render_script pitch [lionBlock; yachtBlock]); vm_compute; reflexivity.
Defined.

End DisplayFacts.

(** ** The speech handler past its validation *)

Module SpeechFacts.
Import JS Gemini Speech.

Lemma extractPrompts_blocks intro bs :
  Script.markerFree intro = true -> forallb Script.wellFormed bs = true ->
  Cue.extractPrompts (Script.script intro bs) =
  map (fun b => trim (Script.prompt b)) bs.
Proof.
  intros Hintro Hbs. unfold Cue.extractPrompts, matchAll.
  apply ScriptFacts.matchAll_script; auto.
Qed.

(** Once the rewrite has answered with a text, the [try] block issues
    the same three requests and hands over the same prompts whatever
    the syntheses answer. *)
Lemma tryGenerate_rewritten env st r t :
  rewrite env = Fulfilled r -> text r = Some t ->
  let a := tryGenerate env st in
  let prompts := Cue.extractPrompts (trim t) in
  made a =
    [Net (GenerateContent (js "gemini-2.5-flash") (rewritePrompt (textInput st)));
     Net (GenerateContent ttsModel (textInput st));
     Net (GenerateContent ttsModel (belfortVoicePrompt (Cue.stripBoth (trim t))))] /\
  handed a = (if 0 <? length prompts then Some prompts else None) /\
  belfortText (reached a) = Some (trim t) /\
  hasImagePrompts (reached a) = (0 <? length prompts) || hasImagePrompts st.
Proof.
  intros Hr Ht a prompts. unfold a, tryGenerate. rewrite Hr, Ht. fold prompts.
  destruct (0 <? length prompts);
    destruct (outcome (promiseAll [speakOriginal env; speakBelfort env]))
      as [responses|e];
    try destruct (truthy (audioData (nth 0 responses _)) &&
                  truthy (audioData (nth 1 responses _)));
    try destruct (decodeAudio env (interpolate (audioData (nth 0 responses _))));
    try destruct (decodeAudio env (interpolate (audioData (nth 1 responses _))));
    cbn; auto.
Qed.

Lemma tryGenerate_unanswered env st :
  (forall r, rewrite env = Fulfilled r -> text r = None) ->
  let a := tryGenerate env st in
  made a =
    [Net (GenerateContent (js "gemini-2.5-flash") (rewritePrompt (textInput st)))] /\
  handed a = None /\ reached a = st /\ escaped a <> None.
Proof.
  intros Hr a. unfold a, tryGenerate.
  destruct (rewrite env) as [r|e]; [rewrite (Hr r eq_refl)|];
    cbn; repeat split; discriminate.
Qed.

(** With a rewritten text that is a script of well-formed blocks, the
    handler issues three requests: the rewrite, the synthesis of the
    raw input, and the synthesis of the script without its marker and
    prompt lines; and it hands the trimmed prompts of the blocks to the
    shell, when there is one at least. *)
Theorem speech_requests env st r t intro bs :
  blank (textInput st) = false -> truthy (API_KEY env) = true ->
  rewrite env = Fulfilled r -> text r = Some t ->
  trim t = Script.script intro bs ->
  Script.markerFree intro = true -> forallb Script.wellFormed bs = true ->
  let run := handleGenerateSpeech env st in
  effects run =
    [Net (GenerateContent (js "gemini-2.5-flash") (rewritePrompt (textInput st)));
     Net (GenerateContent ttsModel (textInput st));
     Net (GenerateContent ttsModel
            (belfortVoicePrompt (intro ++ flat_map Script.prose bs)))] /\
  length (netCalls (effects run)) = 3 /\
  scriptGenerated run =
    match bs with
    | [] => None
    | _ :: _ => Some (map (fun b => trim (Script.prompt b)) bs)
    end.
Proof.
  intros Hb Hk Hr Ht Htrim Hintro Hbs run.
  unfold run, handleGenerateSpeech. rewrite Hb, Hk. cbn [negb effects scriptGenerated].
  match goal with |- context [tryGenerate env ?s] => set (st0 := s) end.
  destruct (@tryGenerate_rewritten env st0 r t Hr Ht) as (Hmade & Hhanded & _).
  rewrite Hmade, Hhanded, Htrim.
  unfold Cue.stripBoth, replace.
  rewrite NarrationFacts.stripBoth_fuel, extractPrompts_blocks by (auto; lia).
  split; [reflexivity|]. split; [reflexivity|].
  now destruct bs.
Qed.

Lemma speech_requests_witness :
  length (netCalls (effects (handleGenerateSpeech allAnswer draft))) = 3 /\
  scriptGenerated (handleGenerateSpeech allAnswer draft) =
    Some [Script.prompt Script.lionBlock; Script.prompt Script.yachtBlock].
Proof.
  destruct (@speech_requests allAnswer draft scripted
              (Script.script Script.pitch [Script.lionBlock; Script.yachtBlock] ++ [LF])
              Script.pitch [Script.lionBlock; Script.yachtBlock])
    as (_ & Hcalls & Hhanded); try (vm_compute; reflexivity).
  split; [exact Hcalls | exact Hhanded].
Defined.

(** The flag behind the [Generate Images for Script] button is on after
    a run exactly when that run handed prompts to the shell; and what it
    handed over is never empty and is what [extractPrompts] finds in
    the text now on screen. *)
Lemma prompts_flag_matches_handover env st :
  blank (textInput st) = false -> truthy (API_KEY env) = true ->
  let run := handleGenerateSpeech env st in
  (hasImagePrompts (final run) = true <->
   exists prompts, scriptGenerated run = Some prompts) /\
  (forall prompts,
     scriptGenerated run = Some prompts ->
     prompts <> [] /\
     exists t, belfortText (final run) = Some t /\ prompts = Cue.extractPrompts t).
Proof.
  intros Hb Hk run. unfold run, handleGenerateSpeech. rewrite Hb, Hk.
  cbn [negb final scriptGenerated].
  match goal with |- context [tryGenerate env ?s] => set (st0 := s) end.
  set (a := tryGenerate env st0).
  assert (Hfin : forall caught,
            caught = match escaped a with
                     | Some e => setError (Some (anErrorOccurred e)) (reached a)
                     | None => reached a
                     end ->
            hasImagePrompts (setIsLoading false caught) = hasImagePrompts (reached a) /\
            belfortText (setIsLoading false caught) = belfortText (reached a)).
  { intros caught ->. destruct (escaped a); split; reflexivity. }
  destruct (Hfin _ eq_refl) as [-> ->]. clear Hfin.
  destruct (rewrite env) as [r|e] eqn:Hr; [destruct (text r) as [t|] eqn:Ht|].
  - destruct (@tryGenerate_rewritten env st0 r t Hr Ht) as (_ & Hh & Hbt & Hflag).
    fold a in Hh, Hbt, Hflag. rewrite Hh, Hbt, Hflag.
    change (hasImagePrompts st0) with false. rewrite orb_false_r.
    destruct (Cue.extractPrompts (trim t)) as [|p ps] eqn:Hps; cbn [length Nat.ltb Nat.leb].
    + split; [split; [discriminate | intros [? ?]; discriminate] | discriminate].
    + split; [split; eauto|].
      intros prompts [= <-]. split; [discriminate|]. eauto.
  - destruct (@tryGenerate_unanswered env st0) as (_ & Hh & Hst & _).
    { intros r' Hr'. rewrite Hr in Hr'. injection Hr' as <-. exact Ht. }
    fold a in Hh, Hst. rewrite Hh, Hst.
    split; [split; [discriminate | intros [? ?]; discriminate] | discriminate].
  - destruct (@tryGenerate_unanswered env st0) as (_ & Hh & Hst & _).
    { intros r' Hr'. rewrite Hr in Hr'. discriminate. }
    fold a in Hh, Hst. rewrite Hh, Hst.
    split; [split; [discriminate | intros [? ?]; discriminate] | discriminate].
Qed.

(** The run that succeeds: both decoded buffers are stored, no error
    is shown, the loading flag is off and the rewritten text is on
    screen; the one call of [playAudio] is for the Belfort version, and
    on a component that has not played anything yet this version is what
    sounds once the teardown started by the call has completed. *)
Theorem speech_success_plays_belfort env st r t r1 r2 b1 b2 :
  blank (textInput st) = false -> truthy (API_KEY env) = true ->
  rewrite env = Fulfilled r -> text r = Some t ->
  outcome (speakOriginal env) = Fulfilled r1 ->
  outcome (speakBelfort env) = Fulfilled r2 ->
  truthy (audioData r1) = true -> truthy (audioData r2) = true ->
  decodeAudio env (interpolate (audioData r1)) = Fulfilled b1 ->
  decodeAudio env (interpolate (audioData r2)) = Fulfilled b2 ->
  let run := handleGenerateSpeech env st in
  generatedAudio (final run) = {| original := Some b1; belfort := Some b2 |} /\
  error (final run) = None /\ isLoading (final run) = false /\
  belfortText (final run) = Some (trim t) /\
  audio (final run) =
    Playback.playAudio (closing env) (Some b2) (Playback.ensureContext (audio st)) /\
  (audio st = Playback.emptyWorld ->
   Playback.active (Playback.teardownCompletes (audio (final run))) = [Some b2]).
Proof.
  intros Hb Hk Hr Ht H1 H2 Hd1 Hd2 Hb1 Hb2 run.
  assert (Hrun : generatedAudio (final run) =
                   {| original := Some b1; belfort := Some b2 |} /\
                 error (final run) = None /\ isLoading (final run) = false /\
                 belfortText (final run) = Some (trim t) /\
                 audio (final run) =
                   Playback.playAudio (closing env) (Some b2)
                     (Playback.ensureContext (audio st))).
  { unfold run, handleGenerateSpeech. rewrite Hb, Hk. cbn [negb final].
    unfold tryGenerate, promiseAll. rewrite Hr, Ht.
    cbn [firstRejection fulfilledValues]. rewrite H1, H2.
    cbn [outcome nth]. rewrite Hd1, Hd2. cbn [andb]. rewrite Hb1, Hb2.
    destruct (0 <? length (Cue.extractPrompts (trim t))); cbn; auto. }
  destruct Hrun as (Hga & Herr & Hload & Htext & Haudio).
  repeat (split; [assumption|]).
  intros Hempty. rewrite Haudio, Hempty. reflexivity.
Qed.

Lemma speech_success_plays_belfort_witness :
  generatedAudio (final (handleGenerateSpeech allAnswer draft)) =
    {| original := Some Playback.bufferA; belfort := Some Playback.bufferB |} /\
  Playback.active
    (Playback.teardownCompletes (audio (final (handleGenerateSpeech allAnswer draft)))) =
    [Some Playback.bufferB].
Proof.
  destruct (@speech_success_plays_belfort allAnswer draft scripted
              (Script.script Script.pitch [Script.lionBlock; Script.yachtBlock] ++ [LF])
              spoken spokenBelfort Playback.bufferA Playback.bufferB)
    as (Hga & _ & _ & _ & _ & Hplay); try (vm_compute; reflexivity).
  split; [exact Hga | apply Hplay; reflexivity].
Defined.

End SpeechFacts.

(** ** The shell between the speech tab and the image tab *)

Module AppFacts.
Import JS Gemini App.

(** Whenever the [Generate Images for Script] button is on screen
    after a run of the speech handler, pressing it opens the image tab,
    re-mounted, on the first prompt of the text now on screen, whatever
    prompts an earlier run had left in the shell. *)
Theorem script_button_uses_current_script env st app now :
  blank (Speech.textInput st) = false -> truthy (Speech.API_KEY env) = true ->
  let run := Speech.handleGenerateSpeech env st in
  scriptButtonShown (Speech.final run) = true ->
  exists t first rest,
    Speech.belfortText (Speech.final run) = Some t /\
    Cue.extractPrompts t = first :: rest /\
    let app' := handleGenerateImagesForScript now (afterSpeech run app) in
    activeTab app' = image /\ initialImagePrompt app' = first /\
    imageGenKey app' = now /\ imagePrompts app' = first :: rest.
Proof.
  intros Hb Hk run Hshown.
  destruct (@SpeechFacts.prompts_flag_matches_handover env st Hb Hk) as [Hflag Hsound].
  fold run in Hflag, Hsound.
  assert (Hon : Speech.hasImagePrompts (Speech.final run) = true).
  { unfold scriptButtonShown in Hshown.
    destruct (Speech.belfort _); [|discriminate].
    now apply andb_prop in Hshown as [_ Hshown]. }
  apply Hflag in Hon as [prompts Hp].
  destruct (Hsound prompts Hp) as (Hne & t & Ht & ->).
  destruct (Cue.extractPrompts t) as [|first rest] eqn:Hps; [contradiction|].
  exists t, first, rest. split; [exact Ht|]. split; [exact Hps|].
  unfold afterSpeech. rewrite Hp.
  unfold handleGenerateImagesForScript, handleScriptGenerated. cbn. auto.
Qed.

Lemma script_button_uses_current_script_witness :
  exists t first rest,
    Cue.extractPrompts t = first :: rest /\
    initialImagePrompt
      (handleGenerateImagesForScript 7
         (afterSpeech (Speech.handleGenerateSpeech Speech.allAnswer Speech.draft)
            (initial 0))) = first.
Proof.
  destruct (@script_button_uses_current_script Speech.allAnswer Speech.draft
              (initial 0) 7%N)
    as (t & first & rest & _ & Hps & _ & Hfirst & _);
    try (vm_compute; reflexivity).
  exists t, first, rest. split; assumption.
Defined.

End AppFacts.

(** ** The notice of the image tab *)

Module ViewFacts.
Import JS Gemini.

(** The notice of the image tab is yellow exactly after a partial
    success: input and credential were accepted, the five requests all
    fulfilled, and between one and four answers carried a picture.
    Every other notice is red. *)
Theorem notice_yellow_iff_partial env prompt st :
  let run := Image.handleGenerateImage env prompt st in
  Image.noticeStyle (Image.final run) = Some Image.Yellow <->
  blank prompt = false /\ truthy (Image.API_KEY env) = true /\
  exists responses,
    outcome (promiseAll (Image.imagePromises env)) = Fulfilled responses /\
    0 < length (Image.collectUrls responses) < 5.
Proof.
  intros run. unfold run, Image.handleGenerateImage, Image.noticeStyle.
  destruct (blank prompt).
  { cbn. split; [discriminate | intros [? _]; discriminate]. }
  destruct (truthy (Image.API_KEY env)); cbn [negb].
  2:{ cbn. split; [discriminate | intros (_ & ? & _); discriminate]. }
  destruct (outcome (promiseAll (Image.imagePromises env))) as [responses|e];
    cbn [Image.final Image.error Image.imageUrls Image.isLoading].
  - unfold Image.aggregate.
    destruct (Nat.ltb_spec 0 (length (Image.collectUrls responses))) as [H0|H0].
    + destruct (Nat.ltb_spec (length (Image.collectUrls responses)) 5) as [H5|H5];
        cbn [Image.error].
      * assert (Hs : forall n m, Image.partialNotice n = m ->
                  match m with
                  | [] => None
                  | c :: m' =>
                      Some (if starts_with (js "Success") (c :: m')
                            then Image.Yellow else Image.Red)
                  end = Some Image.Yellow).
        { intros n m <-. reflexivity. }
        rewrite (Hs _ _ eq_refl). split; [|reflexivity].
        intros _. repeat split. exists responses. repeat split; assumption.
      * split; [discriminate|].
        intros (_ & _ & rs & [= <-] & _ & Hlt). lia.
    + cbn. split; [discriminate|].
      intros (_ & _ & rs & [= <-] & Hpos & _). lia.
  - cbn. split; [discriminate|]. intros (_ & _ & rs & Hrs & _). discriminate.
Qed.

Lemma notice_yellow_iff_partial_witness :
  Image.noticeStyle
    (Image.final (Image.handleGenerateImage Image.allAnswer (js "a wolf") Image.idle)) =
    Some Image.Yellow /\
  Image.noticeStyle
    (Image.final (Image.handleGenerateImage Image.oneRejects (js "a wolf") Image.idle)) =
    Some Image.Red.
Proof.
  split; [|reflexivity].
  apply (@notice_yellow_iff_partial Image.allAnswer (js "a wolf") Image.idle).
  split; [reflexivity|]. split; [reflexivity|].
  eexists. split; [reflexivity|]. vm_compute. lia.
Defined.

End ViewFacts.

(** ** The uploaded image *)

Module UploadFacts.
Import JS Gemini Video.

Lemma splitOn_no_sep sep s :
  existsb (N.eqb sep) s = false -> splitOn sep s = [s].
Proof.
  induction s as [|c s IH]; intros H; [reflexivity|].
  cbn [existsb] in H. apply orb_false_elim in H as [Hc Hs].
  cbn [splitOn]. rewrite N.eqb_sym, Hc, IH by assumption. reflexivity.
Qed.

Lemma splitOn_first sep a b :
  existsb (N.eqb sep) a = false ->
  splitOn sep (a ++ sep :: b) = a :: splitOn sep b.
Proof.
  induction a as [|c a IH]; intros H; cbn [app splitOn].
  - now rewrite N.eqb_refl.
  - cbn [existsb] in H. apply orb_false_elim in H as [Hc Ha].
    rewrite N.eqb_sym, Hc, IH by assumption. reflexivity.
Qed.

Lemma splitOn_with_sep sep s :
  existsb (N.eqb sep) s = true -> 2 <= length (splitOn sep s).
Proof.
  induction s as [|c s IH]; intros H; [discriminate|].
  cbn [existsb] in H. cbn [splitOn]. rewrite N.eqb_sym.
  destruct (N.eqb sep c); cbn [orb] in H.
  - destruct s; cbn [splitOn length]; [lia|].
    destruct (N.eqb _ sep); [cbn [length]; lia|].
    destruct (splitOn sep s); cbn [length]; lia.
  - specialize (IH H). destruct (splitOn sep s); cbn [length] in *; lia.
Qed.

(** [fileToBase64] gives back the payload of a data URL whose media
    type and payload hold no comma, as those of a base64 data URL do;
    and it resolves to [undefined] exactly when the reader's result
    holds no comma at all. *)
Theorem fileToBase64_payload :
  (forall mime payload : jsstring,
     existsb (N.eqb comma) mime = false ->
     existsb (N.eqb comma) payload = false ->
     fileToBase64 (dataUrl mime payload) = Some payload) /\
  (forall result : jsstring,
     fileToBase64 result = None <-> existsb (N.eqb comma) result = false).
Proof.
  split.
  - intros mime payload Hm Hp. unfold fileToBase64, dataUrl.
    change (js ";base64," ++ payload) with (js ";base64" ++ comma :: payload).
    rewrite !app_assoc. rewrite splitOn_first.
    + now rewrite splitOn_no_sep.
    + rewrite !existsb_app. apply orb_false_iff. split; [|reflexivity].
      apply orb_false_iff. split; [reflexivity | exact Hm].
  - intros result. unfold fileToBase64. split.
    + intros H. apply nth_error_None in H.
      destruct (existsb (N.eqb comma) result) eqn:He; [|reflexivity].
      apply splitOn_with_sep in He. lia.
    + intros H. now rewrite splitOn_no_sep.
Qed.

Lemma fileToBase64_payload_witness :
  fileToBase64 (js "data:image/png;base64,aGk=") = Some (js "aGk=") /\
  fileToBase64 (js "wolf.png") = None.
Proof.
  destruct fileToBase64_payload as [Hurl Hnone]. split.
  - apply (Hurl (js "image/png") (js "aGk=")); reflexivity.
  - apply (Hnone (js "wolf.png")). reflexivity.
Defined.

Lemma generate_keeps_file fuel env st run :
  handleGenerateVideo fuel env st = Some run ->
  imageFile (final run) = imageFile st /\
  imagePreview (final run) = imagePreview st.
Proof.
  unfold handleGenerateVideo.
  destruct (blank (prompt st)); destruct (imageFile st) as [file|] eqn:Hf;
    try (intros [= <-]; cbn; auto; fail).
  destruct (negb (truthy (API_KEY env))); [intros [= <-]; cbn; auto|].
  destruct (tryGenerate fuel env (prompt st) file) as [[es [url|e]]|];
    try discriminate; intros [= <-]; cbn; auto.
  unfold onCatch. destruct (includes _ _); cbn; auto.
Qed.

Lemma step_keeps_invariant fuel env a st st' :
  step fuel env a st = Some st' -> fileInvariant env st -> fileInvariant env st'.
Proof.
  destruct a as [| |file|v|]; cbn [step].
  - intros [= <-]. unfold checkApiKey.
    destruct (aistudio env) as [studio|]; [|auto].
    destruct (hasSelectedApiKey studio) as [[|]|]; auto.
  - intros [= <-]. unfold handleSelectKey.
    destruct (aistudio env) as [studio|]; [|auto].
    destruct (openSelectKey studio); auto.
  - intros [= <-]. unfold handleFileChange.
    destruct file as [f|]; [|auto].
    destruct (N.ltb_spec (4 * 1024 * 1024) (fileSize f)) as [Hbig|Hok]; [auto|].
    intros _. unfold fileInvariant. cbn. split; [exact Hok | reflexivity].
  - intros [= <-]. auto.
  - destruct (handleGenerateVideo fuel env st) as [run|] eqn:Hrun; [|discriminate].
    intros [= <-] Hinv. apply generate_keeps_file in Hrun as [Hfile Hprev].
    unfold fileInvariant in *. now rewrite Hfile, Hprev.
Qed.

(** Whatever the user does with the component, the image it holds is
    never larger than 4 MiB and the preview on screen is the preview
    of that image; a larger file is refused with a message and replaces
    nothing. *)
Theorem selected_image_within_limit fuel env actions st :
  runActions fuel env actions initial = Some st ->
  fileInvariant env st /\
  (forall f, imageFile st = Some f -> (fileSize f <= 4194304)%N) /\
  (forall f,
     (4194304 < fileSize f)%N ->
     handleFileChange env (Some f) st = setError (Some imageTooLarge) st).
Proof.
  intros Hrun.
  assert (Hinv : fileInvariant env st).
  { assert (H0 : fileInvariant env initial) by reflexivity.
    revert Hrun H0. generalize initial as st0.
    induction actions as [|a actions IH]; intros st0 Hrun H0; cbn [runActions] in Hrun.
    - now injection Hrun as <-.
    - destruct (step fuel env a st0) as [st1|] eqn:Hstep; [|discriminate].
      apply (IH st1 Hrun). now apply (step_keeps_invariant _ _ _ _ Hstep). }
  split; [exact Hinv|]. split.
  - intros f Hf. unfold fileInvariant in Hinv. rewrite Hf in Hinv. apply Hinv.
  - intros f Hbig. unfold handleFileChange.
    apply N.ltb_lt in Hbig. change (4 * 1024 * 1024)%N with 4194304%N.
    now rewrite Hbig.
Qed.

Lemma selected_image_within_limit_witness :
  fileInvariant doneOnSecondPoll
    (setPrompt (js "a wolf") (handleFileChange doneOnSecondPoll (Some frame) initial)).
Proof.
  apply (@selected_image_within_limit 0 doneOnSecondPoll
           [Mount; FileChange (Some frame); TypePrompt (js "a wolf")]).
  reflexivity.
Defined.

End UploadFacts.

(** ** Runs of the video handler, whatever the service answers *)

Module VideoFacts.
Import JS Gemini Video.

Lemma pollLoop_shape fuel : forall polls k operation es r,
  pollLoop fuel polls k operation = Some (es, r) ->
  exists n,
    pollCycles es = Some n /\ n <= fuel /\
    match r with
    | Fulfilled o =>
        done o = true /\
        match n with
        | O => o = operation
        | S m => polls (k + m) = Fulfilled o
        end
    | Rejected _ => 0 < n
    end.
Proof.
  induction fuel as [|fuel IH]; intros polls k operation es r H;
    cbn [pollLoop] in H; destruct (done operation) eqn:Hd; try discriminate.
  - injection H as <- <-. exists 0. repeat split; [lia | exact Hd].
  - injection H as <- <-. exists 0. repeat split; [lia | exact Hd].
  - destruct (polls k) as [operation'|e] eqn:Hk.
    + destruct (pollLoop fuel polls (S k) operation') as [[es' r']|] eqn:Hl;
        [|discriminate].
      injection H as <- <-. destruct (IH _ _ _ _ _ Hl) as (n & Hn & Hle & Hr).
      exists (S n). cbn [app pollCycles]. rewrite N.eqb_refl, Hn.
      split; [reflexivity|]. split; [lia|].
      destruct r' as [o|e]; [|lia]. destruct Hr as [Hdone Hlast].
      split; [exact Hdone|]. destruct n as [|m].
      * subst o. now rewrite Nat.add_0_r.
      * rewrite Nat.add_succ_r. exact Hlast.
    + injection H as <- <-. exists 1. split; [reflexivity|]. split; lia.
Qed.

Lemma pollCycles_counts n : forall es,
  pollCycles es = Some n ->
  length (filter isSleep es) = n /\ length (filter isPoll es) = n /\
  filter isSubmit es = [] /\ filter isFetch es = [].
Proof.
  induction n as [|n IH]; intros es H;
    destruct es as [|[ms|c] [|[ms'|c'] es']]; cbn [pollCycles] in H;
    try discriminate; try (cbn; auto; fail).
  all: destruct c'; try discriminate.
  all: destruct (N.eqb ms pollInterval); [|discriminate].
  all: destruct (pollCycles es') as [m|] eqn:Hm; [|discriminate].
  all: cbn [option_map] in H; injection H as H; try discriminate.
  subst m. destruct (IH es' Hm) as (H1 & H2 & H3 & H4).
  cbn. rewrite H1, H2, H3, H4. auto.
Qed.

(** The effects of the [try] block: nothing when the file cannot be
    read; otherwise the submission, then whole poll cycles, then the
    download when the job ended with a link, which is also the only
    way to a video.  The link is that of the operation the loop ended
    on: the answer to the last poll, or to the submission when the job
    was done at once. *)
Lemma tryGenerate_shape fuel env p file es r :
  tryGenerate fuel env p file = Some (es, r) ->
  (es = [] /\ exists e, r = Rejected e) \/
  exists submitted cycles rest n,
    es = submitted :: cycles ++ rest /\
    isSubmit submitted = true /\
    pollCycles cycles = Some n /\ n <= fuel /\
    ((rest = [] /\ exists e, r = Rejected e) \/
     exists operation,
       match n with
       | O => submit env = Fulfilled operation
       | S m => poll env m = Fulfilled operation
       end /\
       done operation = true /\ truthy (videoUri operation) = true /\
       rest = [Net (Fetch (interpolate (videoUri operation) ++ js "&key=" ++
                           interpolate (API_KEY env)))]).
Proof.
  unfold tryGenerate.
  destruct (readFile env file) as [imageBase64|e0].
  2:{ intros [= <- <-]. left. eauto. }
  destruct (submit env) as [operation0|e1].
  2:{ intros [= <- <-]. right. eexists _, [], [], 0.
      repeat split; [lia | left; eauto]. }
  destruct (pollLoop fuel (poll env) 0 operation0) as [[cycles r']|] eqn:Hloop;
    [|discriminate].
  destruct (pollLoop_shape _ _ _ _ Hloop) as (n & Hn & Hle & Hr).
  destruct r' as [operation|e2].
  2:{ intros [= <- <-]. right. eexists _, cycles, [], n.
      rewrite app_nil_r. repeat split; auto. left. eauto. }
  destruct (truthy (videoUri operation)) eqn:Hlink.
  2:{ intros [= <- <-]. right. eexists _, cycles, [], n.
      rewrite app_nil_r. repeat split; auto. left. eauto. }
  intros H. right. eexists _, cycles, [_], n.
  assert (Hes : es = Net (GenerateVideos (js "veo-3.1-fast-generate-preview")
                            (themedPrompt p) imageBase64 (fileType file))
                     :: cycles ++
                     [Net (Fetch (interpolate (videoUri operation) ++ js "&key=" ++
                                  interpolate (API_KEY env)))]).
  { destruct (download env _) as [response|e3]; [destruct (negb (ok response))|];
      now injection H as <- _. }
  rewrite Hes. repeat split; auto. right. exists operation.
  destruct Hr as [Hdone Hlast]. split; [|auto].
  destruct n as [|m]; [now subst operation | exact Hlast].
Qed.

Lemma run_effects fuel env st run :
  handleGenerateVideo fuel env st = Some run ->
  effects run = [] \/
  exists file r,
    imageFile st = Some file /\
    tryGenerate fuel env (prompt st) file = Some (effects run, r).
Proof.
  unfold handleGenerateVideo.
  destruct (blank (prompt st)); destruct (imageFile st) as [file|];
    try (intros [= <-]; now left).
  destruct (negb (truthy (API_KEY env))); [intros [= <-]; now left|].
  destruct (tryGenerate fuel env (prompt st) file) as [[es [url|e]]|] eqn:Htry;
    [| |discriminate]; intros [= <-]; right; eexists _, _;
    (split; [reflexivity | exact Htry]).
Qed.

(** Whatever the service answers, a run of the video handler that
    returns has made no call at all, or one submission first, then
    only whole poll cycles (a wait of 10000 ms and then the poll), and
    at most one download, last; its address is the link of the
    finished operation, which is the answer to the last poll or, when
    no poll was needed, to the submission, followed by [&key=] and the
    credential; so there are as many waits as polls. *)
Theorem every_poll_waits fuel env st run :
  handleGenerateVideo fuel env st = Some run ->
  effects run = [] \/
  exists submitted cycles rest n,
    effects run = submitted :: cycles ++ rest /\
    isSubmit submitted = true /\
    pollCycles cycles = Some n /\ n <= fuel /\
    (rest = [] \/
     exists operation,
       match n with
       | O => submit env = Fulfilled operation
       | S m => poll env m = Fulfilled operation
       end /\
       done operation = true /\ truthy (videoUri operation) = true /\
       rest = [Net (Fetch (interpolate (videoUri operation) ++ js "&key=" ++
                           interpolate (API_KEY env)))]) /\
    length (filter isSleep (effects run)) = n /\
    length (filter isPoll (effects run)) = n /\
    length (filter isSubmit (effects run)) = 1.
Proof.
  intros Hrun. destruct (run_effects _ _ _ Hrun) as [Hnone|(file & r & _ & Htry)];
    [now left|].
  destruct (tryGenerate_shape _ _ _ _ Htry)
    as [[Hnil _]|(submitted & cycles & rest & n & Hes & Hsub & Hn & Hle & Hrest)];
    [now left|].
  right. exists submitted, cycles, rest, n.
  destruct (pollCycles_counts _ Hn) as (H1 & H2 & H3 & H4).
  assert (Hrest' : rest = [] \/
            exists operation,
              match n with
              | O => submit env = Fulfilled operation
              | S m => poll env m = Fulfilled operation
              end /\
              done operation = true /\ truthy (videoUri operation) = true /\
              rest = [Net (Fetch (interpolate (videoUri operation) ++ js "&key=" ++
                                  interpolate (API_KEY env)))])
    by (destruct Hrest as [[? _]|?]; auto).
  repeat (split; [assumption|]).
  rewrite Hes. destruct submitted as [ms|[]]; try discriminate.
  cbn [filter isSleep isPoll isSubmit].
  rewrite !filter_app, !length_app, H1, H2, H3. cbn [length app].
  destruct Hrest' as [->|(operation & _ & _ & _ & ->)]; cbn; lia.
Qed.

Lemma every_poll_waits_witness :
  exists run,
    handleGenerateVideo 2 doneOnSecondPoll ready = Some run /\
    length (filter isSleep (effects run)) = length (filter isPoll (effects run)).
Proof.
  eexists. split; [reflexivity|].
  destruct (@every_poll_waits 2 doneOnSecondPoll ready _ eq_refl)
    as [Hnone|(submitted & cycles & rest & n & _ & _ & _ & _ & _ & Hs & Hp & _)].
  - vm_compute in Hnone. discriminate Hnone.
  - now rewrite Hs, Hp.
Defined.

(** A run that passes validation and returns ends with the loading
    flag off and with either a video and no error, reached only
    through the download, or an error and no video: the video of an
    earlier run never stays beside the error of a later one. *)
Theorem video_or_error fuel env st run :
  handleGenerateVideo fuel env st = Some run ->
  blank (prompt st) = false -> imageFile st <> None ->
  truthy (API_KEY env) = true ->
  isLoading (final run) = false /\
  ((exists url, videoUrl (final run) = Some url /\ error (final run) = None /\
                apiKeySelected (final run) = apiKeySelected st /\
                isFetch (last (effects run) (Sleep 0)) = true) \/
   (videoUrl (final run) = None /\ exists m, error (final run) = Some m)).
Proof.
  intros Hrun Hb Hf Hk. unfold handleGenerateVideo in Hrun.
  rewrite Hb, Hk in Hrun. destruct (imageFile st) as [file|]; [|contradiction].
  cbn [negb] in Hrun.
  destruct (tryGenerate fuel env (prompt st) file) as [[es [url|e]]|] eqn:Htry;
    [| |discriminate]; injection Hrun as <-; cbn [final effects].
  - split; [reflexivity|]. left. exists url. repeat split.
    destruct (tryGenerate_shape _ _ _ _ Htry)
      as [[_ [e He]]|(submitted & cycles & rest & n & -> & _ & _ & _ & Hrest)];
      [discriminate|].
    destruct Hrest as [[_ [e He]]|(operation & _ & _ & _ & ->)]; [discriminate|].
    rewrite app_comm_cons, last_last. reflexivity.
  - split; [unfold onCatch; now destruct (includes _ _)|]. right.
    unfold onCatch. destruct (includes _ _); cbn; eauto.
Qed.

Lemma video_or_error_witness :
  exists run,
    handleGenerateVideo 2 doneOnSecondPoll ready = Some run /\
    videoUrl (final run) = Some (js "blob:video") /\ error (final run) = None.
Proof.
  eexists. split; [reflexivity|].
  destruct (@video_or_error 2 doneOnSecondPoll ready _ eq_refl)
    as [_ [(url & Hurl & Herr & _)|[Hnone _]]];
    [reflexivity | discriminate | reflexivity | | vm_compute in Hnone; discriminate Hnone].
  split; [reflexivity | exact Herr].
Defined.

(** The loading message: after any number of ticks of the interval it
    is one of the seven messages, never [undefined]; the messages come
    in the order of the list and start over after the last. *)
Theorem loading_message_cycles n :
  messageIndex (afterTicks n) = S n /\
  loadingMessage (afterTicks n) = nth_error loadingMessages (n mod 7) /\
  (exists m, loadingMessage (afterTicks n) = Some m /\ In m loadingMessages) /\
  loadingMessage (afterTicks (n + 7)) = loadingMessage (afterTicks n).
Proof.
  assert (Hidx : forall k, messageIndex (afterTicks k) = S k).
  { induction k as [|k IH]; [reflexivity|].
    change (afterTicks (S k)) with (tick (afterTicks k)).
    cbn [tick messageIndex]. now rewrite IH. }
  assert (Hmsg : forall k,
            loadingMessage (afterTicks k) = nth_error loadingMessages (k mod 7)).
  { destruct k as [|k]; [reflexivity|].
    change (afterTicks (S k)) with (tick (afterTicks k)).
    cbn [tick loadingMessage]. now rewrite Hidx. }
  split; [apply Hidx|]. split; [apply Hmsg|]. split.
  - rewrite Hmsg.
    destruct (nth_error loadingMessages (n mod 7)) as [m|] eqn:Hm.
    + exists m. split; [reflexivity|]. now apply nth_error_In in Hm.
    + apply nth_error_None in Hm.
      pose proof (Nat.mod_upper_bound n 7 ltac:(discriminate)) as Hlt.
      change (length loadingMessages) with 7 in Hm. lia.
  - rewrite !Hmsg. f_equal.
    replace (n + 7) with (n + 1 * 7) by lia. apply Nat.Div0.mod_add.
Qed.

End VideoFacts.

(** ** Playback, one call at a time *)

Module PlaybackFacts.
Import Playback.

Lemma setNth_last f closed x :
  setNth (length closed) f (closed ++ [x]) = closed ++ [f x].
Proof. induction closed as [|c closed IH]; cbn; [reflexivity | now rewrite IH]. Qed.

Lemma nth_error_last (closed : list AudioContextObj) x :
  nth_error (closed ++ [x]) (length closed) = Some x.
Proof. induction closed as [|c closed IH]; cbn; auto. Qed.

Lemma filter_released closed :
  forallb released closed = true ->
  filter (fun c => negb (released c)) closed = [].
Proof.
  induction closed as [|c closed IH]; intros Hrel; [reflexivity|].
  cbn [forallb] in Hrel. apply andb_prop in Hrel as [Hr Hrel].
  cbn [filter]. rewrite Hr. cbn [negb]. now apply IH.
Qed.

Lemma active_settled b w : settledOn b w -> active w = [b].
Proof.
  intros (closed & Hc & Hrel & _ & _). unfold active.
  rewrite Hc, filter_app, filter_released by assumption. reflexivity.
Qed.

(** A call on a settled component, then the end of the teardown it
    started: the context that was live is released, and a new one
    plays the buffer of the call. *)
Lemma play_then_teardown policy b x w :
  settledOn x w ->
  settledOn (Some b) (teardownCompletes (playAudio policy (Some b) w)).
Proof.
  intros (closed & Hc & Hrel & Hcur & Hp).
  unfold playAudio, ensureContext. rewrite Hcur. cbn [current contexts].
  rewrite Hcur, Hc, nth_error_last. cbn [freshContext closeRequested].
  unfold teardownCompletes. cbn [pendingClose contexts]. rewrite Hp. cbn [app].
  rewrite !setNth_last, length_app. cbn [length].
  exists (closed ++ [markReleased (markCloseRequested (freshContext x))]).
  cbn [contexts current pendingClose]. rewrite length_app, forallb_app, Hrel.
  cbn. auto.
Qed.

Lemma first_play policy b :
  settledOn (Some b) (teardownCompletes (playAudio policy (Some b) emptyWorld)).
Proof. exists [markReleased (markCloseRequested (freshContext None))]. cbn. auto. Qed.

Lemma oneAtATime_settled policy buffers : forall b x w,
  settledOn x w ->
  settledOn (Some b) (runEvents policy (oneAtATime (buffers ++ [b])) w).
Proof.
  induction buffers as [|b0 buffers IH]; intros b x w Hw;
    unfold runEvents in *; cbn [oneAtATime flat_map app fold_left react].
  - now apply play_then_teardown with (x := x).
  - apply (IH b (Some b0)). now apply play_then_teardown with (x := x).
Qed.

(** Calls that do not overlap keep the playback exclusive: after any
    number of plays, each made once the teardown of the one before has
    completed, exactly one context is live, it is the one
    [audioContextRef.current] refers to, it plays the buffer of the
    last call, and no context of an earlier call is left open; this on
    either kind of host. *)
Theorem one_at_a_time_exclusive policy buffers b :
  let w := runEvents policy (oneAtATime (buffers ++ [b])) emptyWorld in
  active w = [Some b] /\ pendingClose w = [] /\
  length (filter (fun c => negb (released c)) (contexts w)) = 1 /\
  current w = Some (length (contexts w) - 1) /\
  (exists c ctx,
     current w = Some c /\ nth_error (contexts w) c = Some ctx /\
     released ctx = false /\ closeRequested ctx = false /\
     started ctx = Some b).
Proof.
  intros w.
  assert (Hw : settledOn (Some b) w).
  { unfold w. destruct buffers as [|b0 buffers].
    - apply first_play.
    - change (oneAtATime ((b0 :: buffers) ++ [b]))
        with ([Play (Some b0); TeardownCompletes] ++ oneAtATime (buffers ++ [b])).
      unfold runEvents. rewrite fold_left_app.
      exact (@oneAtATime_settled policy buffers b (Some b0) _ (first_play policy b0)). }
  pose proof (active_settled Hw) as Hact.
  destruct Hw as (closed & Hc & Hrel & Hcur & Hp).
  split; [exact Hact|]. split; [exact Hp|]. split.
  - unfold active in Hact. apply (f_equal (@length _)) in Hact.
    now rewrite length_map in Hact.
  - split.
    + rewrite Hcur, Hc, length_app. cbn [length]. f_equal. lia.
    + exists (length closed), (freshContext (Some b)).
      rewrite Hc, nth_error_last. auto.
Qed.

End PlaybackFacts.
